(** * CrochetPattern: the image-to-grid conversion of [src/App.jsx]

    A shallow embedding of the conversion pipeline of the pattern
    generator ([applyContrastBrightness], [getGrayscale], [otsuThreshold],
    [generatePattern], [downloadCSV]) and the properties its
    specification states about it.

    Numbers.  A JavaScript number is modelled as an exact rational ([Q]):
    the arithmetic, the comparisons and the rounding primitives
    ([Math.round], [Math.floor], the byte conversion of a
    [Uint8ClampedArray]) are the mathematical ones; the rounding error of
    binary64 is outside the model.  Integers that the code uses as sizes,
    coordinates and array indices are [Z].  Cells of the pattern are the
    numbers [0] and [1], as [Z]. *)

From Stdlib Require Import Reals Qreals Lra.
From Stdlib Require Import String Ascii ZArith QArith Qround Qabs List Bool.
From Stdlib Require Import Lia Lqa Permutation DecimalString.
Import ListNotations.

Local Open Scope Z_scope.
Local Open Scope Q_scope.

(* ------------------------------------------------------------------ *)
(** ** Numbers *)

Module Num.

(** [a < b] on numbers, as a boolean. *)
Definition ltb (a b : Q) : bool :=
  match a ?= b with Lt => true | _ => false end.

(** [Math.max], [Math.min]. *)
Definition max (a b : Q) : Q := if ltb a b then b else a.
Definition min (a b : Q) : Q := if ltb b a then b else a.

(** [Math.round] (halves go up).  [Math.floor] only occurs on a
    quotient of two integers, which is [Z.div]. *)
Definition round (a : Q) : Z := Qfloor (a + (1 # 2)).

(** The conversion applied when a number is stored into a
    [Uint8ClampedArray] (the [data] of a canvas [ImageData]):
    clamp to [0, 255], then round to the nearest integer, a tie going
    to the even neighbour. *)
Definition toUint8Clamp (a : Q) : Z :=
  let c := min 255 (max 0 a) in
  let f := Qfloor c in
  if ltb (inject_Z f + (1 # 2)) c then (f + 1)%Z
  else if ltb c (inject_Z f + (1 # 2)) then f
  else if Z.even f then f else (f + 1)%Z.

(** [Math.sqrt(s) > t].  The square root of a rational is not a
    rational in general, so the model keeps the comparison, which is
    decided exactly: the root of [s] exceeds [t] when [t] is negative or
    [t * t < s] (lemma [sqrt_gtb_real] relates it to the real root). *)
Definition sqrt_gtb (s t : Q) : bool := ltb t 0 || ltb (t * t) s.

(** The conversion of the operands of a bitwise operator (ToInt32). *)
Definition toInt32 (n : Z) : Z :=
  ((n + 2 ^ 31) mod 2 ^ 32 - 2 ^ 31)%Z.

End Num.

Infix "<?" := Num.ltb (at level 70, no associativity) : Q_scope.

(* ------------------------------------------------------------------ *)
(** ** Arrays and loops *)

(** [a[i]].  The canvas returns one pixel per cell, so the luminance
    field and the error buffers have [gridWidth * gridHeight] elements
    and the algorithms read them inside these bounds; outside (where
    JavaScript gives [undefined]) the model gives the default [d]. *)
Definition get {A} (d : A) (a : list A) (i : Z) : A :=
  if (i <? 0)%Z then d else nth (Z.to_nat i) a d.

(** [a[i] = f(a[i])], the shape of [a[i] += v] and [a[i]++].  The
    pipeline guards every such write of the error buffers by a bounds
    test; the histogram bins are the 256 elements the array was made
    with, and a write at another index leaves these as they are. *)
Fixpoint alter_nth {A} (f : A -> A) (n : nat) (a : list A) : list A :=
  match a, n with
  | [], _ => []
  | x :: r, O => f x :: r
  | x :: r, S n => x :: alter_nth f n r
  end.

Definition alter_at {A} (f : A -> A) (i : Z) (a : list A) : list A :=
  if (i <? 0)%Z then a else alter_nth f (Z.to_nat i) a.

(** [a[i] += v]. *)
Definition add_at (i : Z) (v : Q) (a : list Q) : list Q :=
  alter_at (fun x => x + v) i a.

(** Two arrays of numbers that hold equal numbers. *)
Definition same (a b : list Q) : Prop := Forall2 Qeq a b.

(** The values [0, 1, ..., n-1] a counting loop goes through. *)
Definition upto (n : Z) : list Z := map Z.of_nat (seq 0 (Z.to_nat n)).

(** [for (let i = 0; i < n; i++) body]. *)
Definition for_upto {St} (n : Z) (body : Z -> St -> St) (s : St) : St :=
  fold_left (fun s i => body i s) (upto n) s.

(** [for (let i = lo; i <= hi; i++) body]. *)
Definition for_range {St} (lo hi : Z) (body : Z -> St -> St) (s : St)
  : St :=
  fold_left (fun s i => body (lo + i)%Z s) (upto (hi - lo + 1)) s.

(** The values [lo, ..., hi] such a loop goes through. *)
Definition span (lo hi : Z) : list Z :=
  map (fun k => (lo + k)%Z) (upto (hi - lo + 1)).

(** The pairs [(y, x)] that two nested loops go through, the outer one
    over [ys] and the inner one over [xs]. *)
Definition pairs (ys xs : list Z) : list (Z * Z) :=
  flat_map (fun y => map (fun x => (y, x)) xs) ys.

(** The cells [(y, x)] of a grid in row-major order, the order in which
    the nested loops of the algorithms visit them. *)
Definition cells (W H : Z) : list (Z * Z) := pairs (upto H) (upto W).

(** [a.map((v, i) => f(v, i))]. *)
Fixpoint mapi_from {A B} (f : A -> Z -> B) (i : Z) (a : list A) : list B :=
  match a with
  | [] => []
  | v :: r => f v i :: mapi_from f (i + 1)%Z r
  end.

Definition mapi {A B} (f : A -> Z -> B) (a : list A) : list B :=
  mapi_from f 0%Z a.

(** [a.slice(i, j)] for [0 <= i]. *)
Definition slice {A} (a : list A) (i j : Z) : list A :=
  firstn (Z.to_nat j - Z.to_nat i) (skipn (Z.to_nat i) a).

(* ------------------------------------------------------------------ *)
(** ** Tone adjustment and luminance *)

Module Tone.

(** The right-hand side of the three assignments of
    [applyContrastBrightness]. *)
Definition adjusted (contrast brightness : Q) (v : Z) : Q :=
  let c := contrast / 100 in
  let b := (brightness - 100) * (255 # 100) in
  Num.min 255 (Num.max 0 ((inject_Z v - 128) * c + 128 + b)).

(** What [data[i]] holds after the assignment: [data] is the
    [Uint8ClampedArray] of the canvas. *)
Definition channel (contrast brightness : Q) (v : Z) : Z :=
  Num.toUint8Clamp (adjusted contrast brightness v).

(** [applyContrastBrightness]: the loop goes through [data] four bytes
    at a time and rewrites the first three of each group. *)
Fixpoint applyContrastBrightness (contrast brightness : Q) (data : list Z)
  : list Z :=
  let f := channel contrast brightness in
  match data with
  | r :: g :: b :: a :: rest =>
      f r :: f g :: f b :: a :: applyContrastBrightness contrast brightness rest
  | [r; g; b] => [f r; f g; f b]
  | [r; g] => [f r; f g]
  | [r] => [f r]
  | [] => []
  end.

(** [getGrayscale] at the start of a group of four bytes. *)
Definition getGrayscale (r g b : Z) : Q :=
  (299 # 1000) * inject_Z r + (587 # 1000) * inject_Z g
  + (114 # 1000) * inject_Z b.

(** [for (i = 0; i < data.length; i += 4) gray.push(getGrayscale(data, i))]
    on the whole groups of [data] (an [ImageData] has no other). *)
Fixpoint grayOf (data : list Z) : list Q :=
  match data with
  | r :: g :: b :: _ :: rest => getGrayscale r g b :: grayOf rest
  | _ => []
  end.

End Tone.

(* ------------------------------------------------------------------ *)
(** ** The automatic threshold *)

Module Otsu.

(** [hist = new Array(256).fill(0)], then
    [grayscaleArr.forEach(v => hist[Math.round(v)]++)]. *)
Definition histogram (gray : list Q) : list Z :=
  fold_left (fun hist v => alter_at Z.succ (Num.round v) hist) gray
            (repeat 0%Z 256).

(** [for (let i = 0; i < 256; i++) sum += i * hist[i]]. *)
Definition weighted_sum (hist : list Z) : Z :=
  for_upto 256 (fun i sum => (sum + i * get 0 hist i)%Z) 0%Z.

(** The variables of the scan. *)
Record scan := Scan { sumB : Z; wB : Z; max : Q; thresh : Z }.

(** The value [between] of one iteration, from its [wB], [wF] and
    [sumB]. *)
Definition between (sum sumB wB wF : Z) : Q :=
  let mB := inject_Z sumB / inject_Z wB in
  let mF := inject_Z (sum - sumB) / inject_Z wF in
  inject_Z wB * inject_Z wF * (mB - mF) * (mB - mF).

(** The second loop of [otsuThreshold] over the indices still to visit;
    [continue] goes on with the next index, [break] leaves with the
    current [thresh]. *)
Fixpoint scan_from (hist : list Z) (total sum : Z) (todo : list Z) (s : scan)
  : Z :=
  match todo with
  | [] => thresh s
  | i :: rest =>
      let wB' := (wB s + get 0 hist i)%Z in
      if (wB' =? 0)%Z then
        scan_from hist total sum rest (Scan (sumB s) wB' (max s) (thresh s))
      else
        let wF := (total - wB')%Z in
        if (wF =? 0)%Z then thresh s
        else
          let sumB' := (sumB s + i * get 0 hist i)%Z in
          let b := between sum sumB' wB' wF in
          if max s <? b then scan_from hist total sum rest (Scan sumB' wB' b i)
          else scan_from hist total sum rest (Scan sumB' wB' (max s) (thresh s))
  end.

Definition otsuThreshold (gray : list Q) : Z :=
  let hist := histogram gray in
  let total := Z.of_nat (length gray) in
  let sum := weighted_sum hist in
  scan_from hist total sum (upto 256) (Scan 0 0 0 0).

End Otsu.

(* ------------------------------------------------------------------ *)
(** ** The pattern algorithms *)

Module Pattern.

(** The state that [generatePattern] reads. *)
Record settings := Settings {
  gridWidth : Z;
  gridHeight : Z;
  threshold : Q;
  invertColors : bool;
  algorithm : string;
  contrast : Q;
  brightness : Q;
  edgeSensitivity : Q;
  adaptiveBlockSize : Z;
  ditherStrength : Q
}.

(** [g < t ? 1 : 0]. *)
Definition dark (g t : Q) : Z := if g <? t then 1%Z else 0%Z.

(** [default:] the simple threshold. *)
Definition simple (threshold : Q) (gray : list Q) : list Z :=
  map (fun g => dark g threshold) gray.

(** [case 'otsu']. *)
Definition otsu (gray : list Q) : list Z :=
  let t := Otsu.otsuThreshold gray in
  map (fun g => dark g (inject_Z t)) gray.

(** The two nested loops over the cells, [y] outside and [x] inside. *)
Definition for_cells {St} (W H : Z) (body : Z -> Z -> St -> St) (s : St)
  : St :=
  for_upto H (fun y s => for_upto W (fun x s => body y x s) s) s.

(** The state of these loops when they reach the cell [(y, x)]: the
    body has run on the cells before it in row-major order. *)
Definition reached {St} (W H : Z) (body : Z -> Z -> St -> St) (s : St)
  (y x : Z) : St :=
  fold_left (fun s c => body (fst c) (snd c) s)
            (firstn (Z.to_nat (y * W + x)) (cells W H)) s.

(** The error buffer and the result of a dithering scan. *)
Definition dither := (list Q * list Z)%type.

(** [newVal = old < threshold ? 0 : 255]. *)
Definition quantize (old threshold : Q) : Q :=
  if old <? threshold then 0 else 255.

(** [newVal === 0 ? 1 : 0]. *)
Definition black (newVal : Q) : Z := if Qeq_bool newVal 0 then 1%Z else 0%Z.

(** The body of the loops of [case 'floydSteinberg']. *)
Definition fs_cell (W H : Z) (threshold strength : Q) (y x : Z) (s : dither)
  : dither :=
  let '(err, result) := s in
  let idx := (y * W + x)%Z in
  let old := get 0 err idx in
  let newVal := quantize old threshold in
  let result := result ++ [black newVal] in
  let quant := (old - newVal) * strength in
  let err := if (x + 1 <? W)%Z then add_at (idx + 1) (quant * 7 / 16) err
             else err in
  let err :=
    if (y + 1 <? H)%Z then
      let err := if (x >? 0)%Z then add_at (idx + W - 1) (quant * 3 / 16) err
                 else err in
      let err := add_at (idx + W) (quant * 5 / 16) err in
      if (x + 1 <? W)%Z then add_at (idx + W + 1) (quant * 1 / 16) err
      else err
    else err in
  (err, result).

Definition floydSteinberg (W H : Z) (threshold strength : Q) (gray : list Q)
  : list Z :=
  snd (for_cells W H (fs_cell W H threshold strength) (gray, [])).

(** The body of the loops of [case 'atkinson']. *)
Definition atk_cell (W H : Z) (threshold strength : Q) (y x : Z) (s : dither)
  : dither :=
  let '(err, result) := s in
  let idx := (y * W + x)%Z in
  let old := get 0 err idx in
  let newVal := quantize old threshold in
  let result := result ++ [black newVal] in
  let quant := (old - newVal) * strength / 8 in
  let err := if (x + 1 <? W)%Z then add_at (idx + 1) quant err else err in
  let err := if (x + 2 <? W)%Z then add_at (idx + 2) quant err else err in
  let err :=
    if (y + 1 <? H)%Z then
      let err := if (x >? 0)%Z then add_at (idx + W - 1) quant err else err in
      let err := add_at (idx + W) quant err in
      if (x + 1 <? W)%Z then add_at (idx + W + 1) quant err else err
    else err in
  let err := if (y + 2 <? H)%Z then add_at (idx + W * 2) quant err else err in
  (err, result).

Definition atkinson (W H : Z) (threshold strength : Q) (gray : list Q)
  : list Z :=
  snd (for_cells W H (atk_cell W H threshold strength) (gray, [])).

(** [case 'ordered']. *)
Definition bayer : list (list Q) :=
  [[0; 8; 2; 10]; [12; 4; 14; 6]; [3; 11; 1; 9]; [15; 7; 13; 5]].

Definition ordered_threshold (W : Z) (threshold ditherStrength : Q) (i : Z)
  : Q :=
  let x := Z.rem i W in
  let y := (i / W)%Z in
  threshold
  + (get 0 (get [] bayer (Z.rem y 4)) (Z.rem x 4) / 16 - (1 # 2)) * 128
    * (ditherStrength / 100).

Definition ordered (W : Z) (threshold ditherStrength : Q) (gray : list Q)
  : list Z :=
  mapi (fun g i => dark g (ordered_threshold W threshold ditherStrength i))
       gray.

(** The body of the loops of [case 'sobel']. *)
Definition sobel_cell (W H : Z) (sens : Q) (gray : list Q) (y x : Z)
  (result : list Z) : list Z :=
  if (x =? 0)%Z || (x =? W - 1)%Z || (y =? 0)%Z || (y =? H - 1)%Z
  then result ++ [0%Z]
  else
    let idx := fun i => get 0 gray i in
    let i := (y * W + x)%Z in
    let gx := - idx (i - W - 1)%Z + idx (i - W + 1)%Z - 2 * idx (i - 1)%Z
              + 2 * idx (i + 1)%Z - idx (i + W - 1)%Z + idx (i + W + 1)%Z in
    let gy := - idx (i - W - 1)%Z - 2 * idx (i - W)%Z - idx (i - W + 1)%Z
              + idx (i + W - 1)%Z + 2 * idx (i + W)%Z + idx (i + W + 1)%Z in
    result ++ [if Num.sqrt_gtb (gx * gx + gy * gy) sens then 1%Z else 0%Z].

Definition sobel (W H : Z) (edgeSensitivity : Q) (gray : list Q) : list Z :=
  let sens := edgeSensitivity * 2 in
  for_cells W H (sobel_cell W H sens gray) [].

(** The two inner loops of [case 'adaptive']: [sum] and [count] over
    the offsets [dy], [dx] in [-half .. half] that stay in the grid. *)
Definition window_sum (W H half : Z) (gray : list Q) (y x : Z) : Q * Z :=
  for_range (- half) half
    (fun dy s =>
       for_range (- half) half
         (fun dx '(sum, count) =>
            let ny := (y + dy)%Z in
            let nx := (x + dx)%Z in
            if (ny >=? 0)%Z && (ny <? H)%Z && (nx >=? 0)%Z && (nx <? W)%Z
            then (sum + get 0 gray (ny * W + nx)%Z, (count + 1)%Z)
            else (sum, count))
         s)
    (0, 0%Z).

(** The body of the outer loops of [case 'adaptive']. *)
Definition adaptive_cell (W H : Z) (threshold : Q) (half : Z) (gray : list Q)
  (y x : Z) (result : list Z) : list Z :=
  let '(sum, count) := window_sum W H half gray y x in
  let localMean := sum / inject_Z count in
  let idx := (y * W + x)%Z in
  result ++ [dark (get 0 gray idx) (localMean - (threshold - 128) / 4)].

(** [bs = Math.max(3, adaptiveBlockSize | 1)]. *)
Definition blockSize (adaptiveBlockSize : Z) : Z :=
  Z.max 3 (Z.lor (Num.toInt32 adaptiveBlockSize) 1).

Definition adaptive (W H : Z) (threshold : Q) (adaptiveBlockSize : Z)
  (gray : list Q) : list Z :=
  let bs := blockSize adaptiveBlockSize in
  let half := (bs / 2)%Z in
  for_cells W H (adaptive_cell W H threshold half gray) [].

(** The [switch (algorithm)]. *)
Definition run (st : settings) (gray : list Q) : list Z :=
  let W := gridWidth st in
  let H := gridHeight st in
  let strength := ditherStrength st / 100 in
  let alg := algorithm st in
  if (alg =? "otsu")%string then otsu gray
  else if (alg =? "floydSteinberg")%string then
    floydSteinberg W H (threshold st) strength gray
  else if (alg =? "atkinson")%string then
    atkinson W H (threshold st) strength gray
  else if (alg =? "ordered")%string then
    ordered W (threshold st) (ditherStrength st) gray
  else if (alg =? "sobel")%string then sobel W H (edgeSensitivity st) gray
  else if (alg =? "adaptive")%string then
    adaptive W H (threshold st) (adaptiveBlockSize st) gray
  else simple (threshold st) gray.

(** [if (invertColors) result = result.map(v => 1 - v)]. *)
Definition invert (invertColors : bool) (result : list Z) : list Z :=
  if invertColors then map (fun v => (1 - v)%Z) result else result.

(** The rows [result.slice(y * gridWidth, (y + 1) * gridWidth)]. *)
Definition assemble (W H : Z) (result : list Z) : list (list Z) :=
  for_upto H (fun y pat => pat ++ [slice result (y * W) ((y + 1) * W)]) [].

(** [generatePattern] from the luminance field on. *)
Definition patternOf (st : settings) (gray : list Q) : list (list Z) :=
  assemble (gridWidth st) (gridHeight st)
           (invert (invertColors st) (run st gray)).

(** [generatePattern].  [image] is [None] when no image is loaded, and
    otherwise holds the bytes (red, green, blue, alpha of each cell, row
    by row) that [getImageData] returns once the browser has drawn the
    cropped image onto the [gridWidth] x [gridHeight] canvas.  The result
    is the argument of [setPattern], [None] when the function returns
    without calling it. *)
Definition generatePattern (st : settings) (image : option (list Z))
  : option (list (list Z)) :=
  match image with
  | None => None
  | Some data =>
      let data := Tone.applyContrastBrightness (contrast st) (brightness st)
                                               data in
      Some (patternOf st (Tone.grayOf data))
  end.

End Pattern.

(* ------------------------------------------------------------------ *)
(** ** The export *)

Module Csv.

Local Open Scope string_scope.

Definition comma : string := ",".
Definition newline : string := String (ascii_of_nat 10) EmptyString.

(** [a.join(sep)]. *)
Fixpoint join (sep : string) (a : list string) : string :=
  match a with
  | [] => ""
  | [x] => x
  | x :: r => x ++ sep ++ join sep r
  end.

(** [c === 1 ? 'X' : 'O']. *)
Definition mark (c : Z) : string := if (c =? 1)%Z then "X" else "O".

(** The text [csv] of [downloadCSV]. *)
Definition csv (pattern : list (list Z)) : string :=
  join newline (map (fun row => join comma (map mark row)) pattern).

(** An integer inside a template literal. *)
Definition decimal (n : Z) : string := NilZero.string_of_int (Z.to_int n).

(** [a.download]. *)
Definition fileName (gridWidth gridHeight : Z) : string :=
  "crochet_pattern_" ++ decimal gridWidth ++ "x" ++ decimal gridHeight
  ++ ".csv".

(** [downloadCSV]: the name and the content of the file offered, [None]
    when there is no pattern. *)
Definition downloadCSV (gridWidth gridHeight : Z) (pattern : list (list Z))
  : option (string * string) :=
  if (length pattern =? 0)%nat then None
  else Some (fileName gridWidth gridHeight, csv pattern).

End Csv.

(* ------------------------------------------------------------------ *)
(** ** The stitch counts *)

Module Stats.

(** [pattern.flat().filter(x => x === 1).length]. *)
Definition black (pattern : list (list Z)) : Z :=
  Z.of_nat (length (filter (fun x => (x =? 1)%Z) (concat pattern))).

(** [stitches]: the pair [(black, total)]. *)
Definition stitches (gridWidth gridHeight : Z) (pattern : list (list Z))
  : Z * Z :=
  if (0 <? length pattern)%nat then (black pattern, (gridWidth * gridHeight)%Z)
  else (0%Z, 0%Z).

End Stats.

(* ------------------------------------------------------------------ *)
(** ** The crop rectangle *)

Module Crop.

(** The state [crop]: fractions of the image's width and height. *)
Record rect := Rect { x1 : Q; y1 : Q; x2 : Q; y2 : Q }.

(** The initial [crop], and [resetCrop]. *)
Definition full : rect := Rect 0 0 1 1.

(** [s.includes(c)] for a string [c] of one character. *)
Fixpoint includes (s : string) (c : ascii) : bool :=
  match s with
  | EmptyString => false
  | String a r => Ascii.eqb a c || includes r c
  end.

(** The update that [handleMouseMove] passes to [setCrop]: [dragging]
    is the handle that was grabbed, [startCrop] the rectangle at that
    time, [dx] and [dy] the displacement of the pointer since then. *)
Definition drag (dragging : string) (startCrop : rect) (dx dy : Q) : rect :=
  let x1 := Crop.x1 startCrop in
  let y1 := Crop.y1 startCrop in
  let x2 := Crop.x2 startCrop in
  let y2 := Crop.y2 startCrop in
  if (dragging =? "move")%string then
    let w := x2 - x1 in
    let h := y2 - y1 in
    let x1 := Num.max 0 (Num.min (1 - w) (Crop.x1 startCrop + dx)) in
    let y1 := Num.max 0 (Num.min (1 - h) (Crop.y1 startCrop + dy)) in
    Rect x1 y1 (x1 + w) (y1 + h)
  else
    let x1 := if includes dragging "l"
              then Num.max 0 (Num.min (x2 - (5 # 100))
                                      (Crop.x1 startCrop + dx))
              else x1 in
    let x2 := if includes dragging "r"
              then Num.max (x1 + (5 # 100))
                           (Num.min 1 (Crop.x2 startCrop + dx))
              else x2 in
    let y1 := if includes dragging "t"
              then Num.max 0 (Num.min (y2 - (5 # 100))
                                      (Crop.y1 startCrop + dy))
              else y1 in
    let y2 := if includes dragging "b"
              then Num.max (y1 + (5 # 100))
                           (Num.min 1 (Crop.y2 startCrop + dy))
              else y2 in
    Rect x1 y1 x2 y2.

(** The source rectangle [(sx, sy, sw, sh)] that [generatePattern]
    passes to [drawImage], for an image of the given size. *)
Definition sourceRect (crop : rect) (width height : Z) : Q * Q * Q * Q :=
  let sx := x1 crop * inject_Z width in
  let sy := y1 crop * inject_Z height in
  let sw := (x2 crop - x1 crop) * inject_Z width in
  let sh := (y2 crop - y1 crop) * inject_Z height in
  (sx, sy, sw, sh).

(** [isCropped]. *)
Definition isCropped (crop : rect) : bool :=
  ((1 # 100) <? x1 crop) || ((1 # 100) <? y1 crop)
  || (x2 crop <? (99 # 100)) || (y2 crop <? (99 # 100)).

End Crop.

(* ------------------------------------------------------------------ *)
(** ** The grid size, the presets and the visible sliders *)

Module App.

Import Pattern.

(** The grid size and what [handleWidthChange] and [handleHeightChange]
    read besides. *)
Record size := Size {
  width : Z;
  height : Z;
  aspectLock : bool;
  originalAspect : Q
}.

(** A number used as a condition: zero is false. *)
Definition truthy (a : Q) : bool := negb (Qeq_bool a 0).

(** [handleWidthChange]; [v] is the value of the range input, an
    integer. *)
Definition handleWidthChange (v : Z) (st : size) : size :=
  let w := Z.max 10 (Z.min 200 v) in
  if aspectLock st && truthy (originalAspect st)
  then Size w (Num.round (inject_Z w / originalAspect st))
            (aspectLock st) (originalAspect st)
  else Size w (height st) (aspectLock st) (originalAspect st).

(** [handleHeightChange]. *)
Definition handleHeightChange (v : Z) (st : size) : size :=
  let h := Z.max 10 (Z.min 200 v) in
  if aspectLock st && truthy (originalAspect st)
  then Size (Num.round (inject_Z h * originalAspect st)) h
            (aspectLock st) (originalAspect st)
  else Size (width st) h (aspectLock st) (originalAspect st).

(** The [defaults] of an algorithm: a parameter that the object does
    not define is [None]. *)
Record defaults := Defaults {
  d_threshold : option Q;
  d_contrast : option Q;
  d_brightness : option Q;
  d_ditherStrength : option Q;
  d_edgeSensitivity : option Q;
  d_adaptiveBlockSize : option Z
}.

(** An entry of [algorithms]. *)
Record info := Info {
  name : string;
  description : string;
  preset : defaults
}.

(** A group of [ALGORITHM_GROUPS]. *)
Record group := Group {
  group_name : string;
  group_description : string;
  algorithms : list (string * info)
}.

(** [ALGORITHM_GROUPS], the keys of each object in the order they are
    written. *)
Definition ALGORITHM_GROUPS : list (string * group) :=
  [("basic",
    Group "Basic" "Simple approaches for clean, bold patterns"
      [("threshold",
        Info "Simple"
             "Basic light/dark cutoff. Best for high-contrast images."
             (Defaults (Some 128) (Some 100) (Some 100) None None None));
       ("otsu",
        Info "Auto" "Automatically finds the best cutoff point."
             (Defaults None (Some 110) (Some 100) None None None))]);
   ("dithering",
    Group "Dithering" "Creates texture using dot patterns for more detail"
      [("floydSteinberg",
        Info "Floyd-Steinberg"
             "Classic dithering with smooth gradients. Great for photos."
             (Defaults (Some 128) (Some 100) (Some 100) (Some 100) None None));
       ("atkinson",
        Info "Atkinson"
             "Lighter dithering, preserves highlights. Retro Mac look."
             (Defaults (Some 128) (Some 110) (Some 105) (Some 100) None None));
       ("ordered",
        Info "Ordered" "Regular dot pattern. Clean, geometric look."
             (Defaults (Some 128) (Some 100) (Some 100) (Some 80) None None))]);
   ("advanced",
    Group "Advanced" "Specialized techniques for specific needs"
      [("adaptive",
        Info "Adaptive"
             "Adjusts locally for uneven lighting. Good for photos with shadows."
             (Defaults (Some 128) (Some 100) (Some 100) None None (Some 11%Z)));
       ("sobel",
        Info "Edges Only"
             "Shows only outlines. Great for line art or coloring patterns."
             (Defaults None (Some 120) (Some 100) None (Some 40) None))])
  ]%string.

(** [o[key]] for a key that [o] defines itself (the keys reaching the
    lookups are those of the table, which the buttons pass). *)
Fixpoint property {A} (o : list (string * A)) (key : string) : option A :=
  match o with
  | [] => None
  | (k, v) :: r => if (k =? key)%string then Some v else property r key
  end.

(** The search of [getAlgorithmInfo] and of [applyPreset]: the entry of
    the first group, in the order of [Object.values], whose
    [algorithms] has the key. *)
Fixpoint firstEntry (groups : list (string * group)) (algo : string)
  : option info :=
  match groups with
  | [] => None
  | (_, g) :: r =>
      match property (algorithms g) algo with
      | Some i => Some i
      | None => firstEntry r algo
      end
  end.

(** [getAlgorithmInfo]; [None] is [null]. *)
Definition getAlgorithmInfo (algo : string) : option info :=
  firstEntry ALGORITHM_GROUPS algo.

(** [if (defaults.p !== undefined) setP(defaults.p)]. *)
Definition orKeep {A} (d : option A) (current : A) : A :=
  match d with Some v => v | None => current end.

(** [applyPreset], on the state that [generatePattern] reads. *)
Definition applyPreset (algo : string) (st : settings) : settings :=
  match firstEntry ALGORITHM_GROUPS algo with
  | Some i =>
      let d := preset i in
      Settings (gridWidth st) (gridHeight st)
               (orKeep (d_threshold d) (threshold st))
               (invertColors st) algo
               (orKeep (d_contrast d) (contrast st))
               (orKeep (d_brightness d) (brightness st))
               (orKeep (d_edgeSensitivity d) (edgeSensitivity st))
               (orKeep (d_adaptiveBlockSize d) (adaptiveBlockSize st))
               (orKeep (d_ditherStrength d) (ditherStrength st))
  | None =>
      Settings (gridWidth st) (gridHeight st) (threshold st)
               (invertColors st) algo (contrast st) (brightness st)
               (edgeSensitivity st) (adaptiveBlockSize st)
               (ditherStrength st)
  end.

(** [[...].includes(algorithm)]. *)
Definition among (a : list string) (s : string) : bool :=
  existsb (fun k => (k =? s)%string) a.

(** Which sliders are shown. *)
Definition showThreshold (algorithm : string) : bool :=
  among ["threshold"; "floydSteinberg"; "atkinson"; "ordered";
         "adaptive"]%string
        algorithm.

Definition showDither (algorithm : string) : bool :=
  among ["floydSteinberg"; "atkinson"; "ordered"]%string algorithm.

Definition showEdge (algorithm : string) : bool :=
  (algorithm =? "sobel")%string.

Definition showAdaptive (algorithm : string) : bool :=
  (algorithm =? "adaptive")%string.

End App.

(* ------------------------------------------------------------------ *)
(** ** The size of the preview *)

Module Preview.

(** The values [(canvasW, canvasH, cellSize)] that [drawPattern]
    computes from the size of its container and of the grid. *)
Definition fit (availW availH gridWidth gridHeight : Z) : Q * Q * Q :=
  let gridAspect := inject_Z gridWidth / inject_Z gridHeight in
  let containerAspect := inject_Z availW / inject_Z availH in
  if containerAspect <? gridAspect then
    let canvasW := inject_Z availW in
    let cellSize := canvasW / inject_Z gridWidth in
    let canvasH := cellSize * inject_Z gridHeight in
    (canvasW, canvasH, cellSize)
  else
    let canvasH := inject_Z availH in
    let cellSize := canvasH / inject_Z gridHeight in
    let canvasW := cellSize * inject_Z gridWidth in
    (canvasW, canvasH, cellSize).

End Preview.

(* ------------------------------------------------------------------ *)
(** ** The specification's formulas

    The definitions of this module follow the wording of the
    specification, not the code; the theorems compare the two. *)

Module Spec.

(** [clamp(lo, hi, a)]. *)
Definition clamp (lo hi a : Q) : Q :=
  if a <? lo then lo else if hi <? a then hi else a.

(** Tone adjuster:
    [clamp(0,255, (v - 128) * (contrast/100) + 128 + (brightness-100)*2.55)]. *)
Definition tone (contrast brightness v : Q) : Q :=
  clamp 0 255 ((v - 128) * (contrast / 100) + 128
               + (brightness - 100) * (255 # 100)).

(** Ordered dithering: the 4x4 Bayer matrix and the local threshold
    [threshold + (bayer[y%4][x%4]/16 - 0.5) * 128 * (ditherStrength/100)]
    of the cell [(x, y)]. *)
Definition bayer : list (list Z) :=
  [[0; 8; 2; 10]; [12; 4; 14; 6]; [3; 11; 1; 9]; [15; 7; 13; 5]]%Z.

Definition bayer_entry (y x : Z) : Z :=
  nth (Z.to_nat (x mod 4)) (nth (Z.to_nat (y mod 4)) bayer []) 0%Z.

Definition ordered_threshold (threshold ditherStrength : Q) (y x : Z) : Q :=
  threshold
  + (inject_Z (bayer_entry y x) / 16 - (1 # 2)) * 128
    * (ditherStrength / 100).

(** The sum of a list of numbers. *)
Definition total (l : list Q) : Q := fold_right Qplus 0 l.

(** The luminance of cell [(x, y)] of a row-major field of width [W]. *)
Definition luminance (W : Z) (gray : list Q) (y x : Z) : Q :=
  get 0 gray (y * W + x).

(** Edge detection: the horizontal and vertical 3x3 Sobel kernels,
    their application at a cell, and the gradient magnitude
    [sqrt(gx^2 + gy^2)], a real number. *)
Definition sobel_x : list (list Z) :=
  [[-1; 0; 1]; [-2; 0; 2]; [-1; 0; 1]]%Z.

Definition sobel_y : list (list Z) :=
  [[-1; -2; -1]; [0; 0; 0]; [1; 2; 1]]%Z.

Definition kernel_entry (K : list (list Z)) (dy dx : Z) : Z :=
  nth (Z.to_nat (dx + 1)) (nth (Z.to_nat (dy + 1)) K []) 0%Z.

Definition convolve3 (K : list (list Z)) (L : Z -> Z -> Q) (y x : Z) : Q :=
  total (flat_map
           (fun dy =>
              map (fun dx => inject_Z (kernel_entry K dy dx)
                             * L (y + dy)%Z (x + dx)%Z)
                  [-1; 0; 1]%Z)
           [-1; 0; 1]%Z).

Definition magnitude (gx gy : Q) : R := sqrt (Q2R (gx * gx + gy * gy)).

(** Automatic threshold.  The histogram of the rounded luminances: bin
    [i] counts the cells whose luminance rounds to [i].  For a split
    [t], the background is the bins [0..t] and the foreground the bins
    [t+1..255]; [wB], [wF] are their weights, [mB], [mF] their mean
    luminances, and the between-class variance is
    [wB * wF * (mB - mF)^2]. *)
Definition sum_over (lo hi : Z) (f : Z -> Z) : Z :=
  fold_right Z.add 0%Z (map f (span lo hi)).

Definition histogram (gray : list Q) (i : Z) : Z :=
  Z.of_nat (count_occ Z.eq_dec (map Num.round gray) i).

Definition variance_of (hist : Z -> Z) (t : Z) : Q :=
  let wB := sum_over 0 t hist in
  let wF := sum_over (t + 1) 255 hist in
  let mB := inject_Z (sum_over 0 t (fun i => i * hist i)%Z) / inject_Z wB in
  let mF := inject_Z (sum_over (t + 1) 255 (fun i => i * hist i)%Z)
            / inject_Z wF in
  inject_Z wB * inject_Z wF * (mB - mF) ^ 2.

Definition variance (gray : list Q) (t : Z) : Q :=
  variance_of (histogram gray) t.

(** Error diffusion.  A kernel lists the neighbours of a cell that
    receive a share of its quantization error, as offsets [(dx, dy)]
    with their weights.  [diffuse] adds to every neighbour inside the
    grid its share of the error [e] and skips the others;
    [propagated] is the total of the shares handed out. *)
Definition kernel := list (Z * Z * Q).

Definition floyd_steinberg : kernel :=
  [(1, 0, 7 # 16); (-1, 1, 3 # 16); (0, 1, 5 # 16); (1, 1, 1 # 16)]%Z.

Definition atkinson : kernel :=
  [(1, 0, 1 # 8); (2, 0, 1 # 8); (-1, 1, 1 # 8); (0, 1, 1 # 8);
   (1, 1, 1 # 8); (0, 2, 1 # 8)]%Z.

Definition in_grid (W H y x : Z) : bool :=
  ((0 <=? x) && (x <? W) && (0 <=? y) && (y <? H))%Z.

Definition diffuse (W H : Z) (K : kernel) (e : Q) (y x : Z) (buf : list Q)
  : list Q :=
  fold_left
    (fun buf n =>
       let '(dx, dy, w) := n in
       if in_grid W H (y + dy) (x + dx)
       then add_at ((y + dy) * W + (x + dx)) (e * w) buf
       else buf)
    K buf.

Definition propagated (W H : Z) (K : kernel) (e : Q) (y x : Z) : Q :=
  total (map (fun n : Z * Z * Q =>
                let '(dx, dy, w) := n in
                if in_grid W H (y + dy) (x + dx) then e * w else 0)
             K).

(** Adaptive threshold: an even block size made odd by adding 1; the
    square neighbourhood of side [side] centred on the cell [(x, y)],
    clipped to the grid (the cells of the grid at most [side / 2] away
    in each direction); the mean luminance over it. *)
Definition odd_side (n : Z) : Z := if Z.even n then (n + 1)%Z else n.

Definition neighbourhood (W H side y x : Z) : list (Z * Z) :=
  filter (fun c => (Z.abs (fst c - y) <=? side / 2)%Z
                   && (Z.abs (snd c - x) <=? side / 2)%Z)
         (cells W H).

Definition local_mean (W H side : Z) (gray : list Q) (y x : Z) : Q :=
  let nb := neighbourhood W H side y x in
  total (map (fun c => luminance W gray (fst c) (snd c)) nb)
  / inject_Z (Z.of_nat (length nb)).

(** Exporter: reading the text table back.  [split sep s] cuts [s] at
    every [sep]. *)
Fixpoint split (sep : ascii) (s : string) : list string :=
  match s with
  | EmptyString => [EmptyString]
  | String c r =>
      if Ascii.eqb c sep then EmptyString :: split sep r
      else match split sep r with
           | [] => [String c EmptyString]
           | h :: t => String c h :: t
           end
  end.

(** The fields of a text table: rows separated by newlines, columns
    by commas. *)
Definition fields (text : string) : list (list string) :=
  map (split ",") (split (ascii_of_nat 10) text).

(** Does the character occur in the string? *)
Fixpoint occurs (c : ascii) (s : string) : bool :=
  match s with
  | EmptyString => false
  | String a r => Ascii.eqb a c || occurs c r
  end.

End Spec.

(* ------------------------------------------------------------------ *)
(** ** Notions used to state further properties *)

(** A cell value of a pattern. *)
Definition binary (c : Z) : Prop := c = 0%Z \/ c = 1%Z.

(** The number of cells 1 of a list of cells. *)
Definition ones (l : list Z) : nat := length (filter (fun x => (x =? 1)%Z) l).

Module Table.

(** Reading an exported table back: ["X"] is 1, another field is 0. *)
Definition decode (text : string) : list (list Z) :=
  map (map (fun f => if (f =? "X")%string then 1%Z else 0%Z))
      (Spec.fields text).

(** The number of fields of a table that are the given string. *)
Definition count (f : string) (text : string) : Z :=
  Z.of_nat (length (filter (fun g => (g =? f)%string)
                           (concat (Spec.fields text)))).

End Table.

(** A crop rectangle inside the image and at least a twentieth of it
    wide and high. *)
Definition valid_crop (r : Crop.rect) : Prop :=
  0 <= Crop.x1 r /\ Crop.x1 r + (5 # 100) <= Crop.x2 r /\ Crop.x2 r <= 1
  /\ 0 <= Crop.y1 r /\ Crop.y1 r + (5 # 100) <= Crop.y2 r /\ Crop.y2 r <= 1.

(** What the user does to the crop rectangle: a drag of a handle from
    the press of the button (when [handleMouseDown] copies [crop] into
    [startCrop]) to the last position of the pointer, [dx] and [dy]
    away from the first; or a reset. *)
Inductive gesture : Type :=
| Drag (handle : string) (dx dy : Q)
| Reset.

Definition perform (crop : Crop.rect) (g : gesture) : Crop.rect :=
  match g with
  | Drag handle dx dy => Crop.drag handle crop dx dy
  | Reset => Crop.full
  end.

(** The crop rectangle after a sequence of gestures, from the initial
    one. *)
Definition crop_after (gs : list gesture) : Crop.rect :=
  fold_left perform gs Crop.full.

(** The aspect of the image is not known (it is zero, which the code
    takes as false). *)
Definition originalAspectUnknown (st : App.size) : Prop :=
  App.originalAspect st == 0.

(** Two crop rectangles with equal coordinates. *)
Definition same_crop (r r' : Crop.rect) : Prop :=
  Crop.x1 r == Crop.x1 r' /\ Crop.y1 r == Crop.y1 r'
  /\ Crop.x2 r == Crop.x2 r' /\ Crop.y2 r == Crop.y2 r'.

(* ================================================================== *)
(** * Properties *)

(* ------------------------------------------------------------------ *)
(** ** Numbers and loops *)

Lemma ltb_lt (a b : Q) : (a <? b) = true <-> a < b.
Proof.
  unfold Num.ltb. rewrite Qlt_alt. destruct (a ?= b); intuition congruence.
Qed.

Lemma ltb_ge (a b : Q) : (a <? b) = false <-> b <= a.
Proof.
  rewrite <- not_true_iff_false, ltb_lt. split; intro h.
  - now apply Qnot_lt_le.
  - now apply Qle_not_lt.
Qed.

Lemma ltb_compat (a a' b b' : Q) :
  a == a' -> b == b' -> (a <? b) = (a' <? b').
Proof.
  intros ea eb. unfold Num.ltb. now rewrite ea, eb.
Qed.

Lemma upto_succ (n : nat) :
  upto (Z.of_nat (S n)) = upto (Z.of_nat n) ++ [Z.of_nat n].
Proof.
  unfold upto. rewrite !Nat2Z.id, seq_S, map_app. reflexivity.
Qed.

Lemma upto_length (n : Z) : length (upto n) = Z.to_nat n.
Proof. unfold upto. now rewrite length_map, length_seq. Qed.

Lemma upto_In (n i : Z) : In i (upto n) <-> (0 <= i < n)%Z.
Proof.
  unfold upto. rewrite in_map_iff. split.
  - intros (k & <- & hk). apply in_seq in hk. lia.
  - intros h. exists (Z.to_nat i). rewrite in_seq. split; lia.
Qed.

Lemma upto_nth (n : Z) (k : nat) (d : Z) :
  (k < Z.to_nat n)%nat -> nth k (upto n) d = Z.of_nat k.
Proof.
  intro h. unfold upto.
  rewrite (nth_indep _ d (Z.of_nat 0)) by now rewrite length_map, length_seq.
  rewrite map_nth, seq_nth by assumption. reflexivity.
Qed.

Lemma nth_map_in {A B} (f : A -> B) (l : list A) (d : B) (d' : A) (n : nat) :
  (n < length l)%nat -> nth n (map f l) d = f (nth n l d').
Proof.
  revert n. induction l as [|a l ih]; intros [|n] h; simpl in *;
    try lia; [reflexivity|]. apply ih. lia.
Qed.

Lemma seq_from (a n : nat) :
  map Z.of_nat (seq a n)
  = map (fun k => (Z.of_nat a + k)%Z) (upto (Z.of_nat n)).
Proof.
  unfold upto. rewrite Nat2Z.id, map_map.
  induction n as [|n ih] in a |- *; simpl; [reflexivity|].
  f_equal; [lia|]. rewrite <- (seq_shift n 0), map_map, ih.
  apply map_ext. intro k. lia.
Qed.

(** A loop whose body only pushes a value computed from the counter. *)
Lemma for_upto_push {A} (f : Z -> A) (n : Z) (init : list A) :
  for_upto n (fun i acc => acc ++ [f i]) init = init ++ map f (upto n).
Proof.
  unfold for_upto. generalize (upto n) as l. intro l. revert init.
  induction l as [|i l ih]; intro init; simpl.
  - now rewrite app_nil_r.
  - rewrite ih, <- app_assoc. reflexivity.
Qed.

Lemma for_cells_fold {St} (W H : Z) (body : Z -> Z -> St -> St) (s : St) :
  Pattern.for_cells W H body s
  = fold_left (fun s c => body (fst c) (snd c) s) (cells W H) s.
Proof.
  unfold Pattern.for_cells, for_upto, cells, pairs.
  generalize (upto H) as ys. intro ys. revert s.
  induction ys as [|y ys ih]; intro s; simpl; [reflexivity|].
  rewrite fold_left_app, ih. f_equal.
  generalize (upto W) as xs. intro xs. revert s.
  induction xs as [|x xs ihx]; intro s; simpl; [reflexivity|]. apply ihx.
Qed.

Lemma fold_push {A C} (f : C -> A) (l : list C) (init : list A) :
  fold_left (fun acc c => acc ++ [f c]) l init = init ++ map f l.
Proof.
  revert init. induction l as [|c l ih]; intro init; simpl.
  - now rewrite app_nil_r.
  - rewrite ih, <- app_assoc. reflexivity.
Qed.

Lemma cells_length (W H : Z) :
  length (cells W H) = (Z.to_nat H * Z.to_nat W)%nat.
Proof.
  unfold cells, pairs. rewrite <- (upto_length H).
  induction (upto H) as [|y ys ih]; simpl; [reflexivity|].
  rewrite length_app, length_map, upto_length, ih. reflexivity.
Qed.

Lemma cells_In (W H y x : Z) :
  In (y, x) (cells W H) <-> (0 <= y < H)%Z /\ (0 <= x < W)%Z.
Proof.
  unfold cells, pairs. rewrite in_flat_map. split.
  - intros (y' & hy & hin). apply in_map_iff in hin.
    destruct hin as (x' & e & hx). inversion e; subst.
    now rewrite upto_In in hy, hx.
  - intros (hy & hx). exists y. rewrite upto_In, in_map_iff. split; [easy|].
    exists x. now rewrite upto_In.
Qed.

(** The cell visited at step [y * W + x] is [(y, x)]. *)
Lemma cells_nth (W H y x : Z) (d : Z * Z) :
  (0 <= y < H)%Z -> (0 <= x < W)%Z ->
  nth (Z.to_nat (y * W + x)) (cells W H) d = (y, x).
Proof.
  intros hy hx. unfold cells, pairs.
  assert (e : upto H = upto y ++ y :: map (fun k => (y + 1 + k)%Z)
                                         (upto (H - y - 1))).
  { unfold upto at 1.
    replace (Z.to_nat H) with (Z.to_nat y + S (Z.to_nat (H - y - 1)))%nat
      by lia.
    rewrite seq_app, map_app. simpl. f_equal. f_equal; [lia|].
    rewrite seq_from, Z2Nat.id by lia. apply map_ext. intro k. lia. }
  rewrite e, flat_map_app. simpl.
  assert (l1 : length (flat_map (fun y0 => map (fun x0 => (y0, x0)) (upto W))
                                (upto y)) = Z.to_nat (y * W)).
  { change (length (cells W y) = Z.to_nat (y * W)).
    rewrite cells_length. nia. }
  rewrite app_nth2 by (rewrite l1; nia).
  rewrite l1. replace (Z.to_nat (y * W + x) - Z.to_nat (y * W))%nat
    with (Z.to_nat x) by nia.
  rewrite app_nth1 by (rewrite length_map, upto_length; lia).
  rewrite (nth_map_in _ _ _ 0%Z) by (rewrite upto_length; lia).
  rewrite upto_nth by lia. f_equal. lia.
Qed.

(** A pair of loops whose body only pushes a value computed from the
    cell: the value of cell [(y, x)] is at index [y * W + x]. *)
Lemma for_cells_push {A} (f : Z -> Z -> A) (W H : Z) :
  Pattern.for_cells W H (fun y x acc => acc ++ [f y x]) []
  = map (fun c => f (fst c) (snd c)) (cells W H).
Proof.
  rewrite for_cells_fold. apply (fold_push (fun c => f (fst c) (snd c))).
Qed.

Lemma for_cells_push_nth {A} (f : Z -> Z -> A) (W H y x : Z) (d : A) :
  (0 <= y < H)%Z -> (0 <= x < W)%Z ->
  get d (Pattern.for_cells W H (fun y x acc => acc ++ [f y x]) []) (y * W + x)
  = f y x.
Proof.
  intros hy hx. rewrite for_cells_push. unfold get.
  replace (y * W + x <? 0)%Z with false by (symmetry; apply Z.ltb_ge; nia).
  rewrite (nth_map_in _ _ _ (0%Z, 0%Z)) by (rewrite cells_length; nia).
  now rewrite cells_nth.
Qed.

(* ------------------------------------------------------------------ *)
(** ** Assembly *)

Lemma assemble_rows (W H : Z) (result : list Z) :
  Pattern.assemble W H result
  = map (fun y => slice result (y * W) ((y + 1) * W)) (upto H).
Proof. unfold Pattern.assemble. now rewrite for_upto_push. Qed.

Lemma skipn_repeat {A} (v : A) (k n : nat) :
  skipn k (repeat v n) = repeat v (n - k).
Proof.
  revert n. induction k as [|k ih]; intros [|n]; simpl; auto.
Qed.

Lemma firstn_repeat {A} (v : A) (k n : nat) :
  (k <= n)%nat -> firstn k (repeat v n) = repeat v k.
Proof.
  revert n. induction k as [|k ih]; intros [|n] h; simpl; try lia; auto.
  f_equal. apply ih. lia.
Qed.

Lemma assemble_uniform (v : Z) (w h : nat) :
  Pattern.assemble (Z.of_nat w) (Z.of_nat h) (repeat v (h * w))
  = repeat (repeat v w) h.
Proof.
  rewrite assemble_rows.
  rewrite (map_ext_in _ (fun _ => repeat v w)).
  - rewrite <- (Nat2Z.id h) at 2. rewrite <- upto_length.
    induction (upto (Z.of_nat h)); simpl; congruence.
  - intros y hy. apply upto_In in hy. unfold slice.
    rewrite skipn_repeat, firstn_repeat; [f_equal; nia | nia].
Qed.

(* ------------------------------------------------------------------ *)
(** ** The simple threshold *)

Import Pattern.

Lemma dark_spec (g t : Q) :
  (dark g t = 1%Z <-> g < t) /\ (dark g t = 0%Z <-> ~ g < t).
Proof.
  unfold dark. rewrite <- ltb_lt. destruct (g <? t); intuition congruence.
Qed.

Lemma simple_uniform (L t : Q) (n : nat) :
  simple t (repeat L n) = repeat (dark L t) n.
Proof. unfold simple. induction n; simpl; congruence. Qed.

(** C1.  With the simple threshold, a cell is 1 exactly when its
    luminance is strictly below the threshold (and 0 otherwise), for
    every luminance field and threshold; on a uniform field of
    luminance 128 with threshold 128 the whole grid is 0, and with the
    inversion switched on it is 1. *)
Theorem simple_threshold_strict :
  (forall (W H : Z) (t : Q) (inv : bool) (c b e : Q) (a : Z) (d : Q)
          (gray : list Q),
      Forall2 (fun L cell => (cell = 1%Z <-> L < t) /\ (cell = 0%Z <-> ~ L < t))
              gray (run (Settings W H t inv "threshold" c b e a d) gray))
  /\ (forall (w h : nat) (c b e : Q) (a : Z) (d : Q),
         patternOf (Settings (Z.of_nat w) (Z.of_nat h) 128 false "threshold"
                             c b e a d)
                   (repeat 128 (h * w))
         = repeat (repeat 0%Z w) h)
  /\ (forall (w h : nat) (c b e : Q) (a : Z) (d : Q),
         patternOf (Settings (Z.of_nat w) (Z.of_nat h) 128 true "threshold"
                             c b e a d)
                   (repeat 128 (h * w))
         = repeat (repeat 1%Z w) h).
Proof.
  split; [|split].
  - intros. unfold run; simpl. unfold simple.
    induction gray as [|L gray ih]; simpl; constructor; auto using dark_spec.
  - intros. unfold patternOf, run; simpl. rewrite simple_uniform.
    apply assemble_uniform.
  - intros. unfold patternOf, run; simpl. rewrite simple_uniform.
    rewrite map_repeat. apply assemble_uniform.
Qed.

(* ------------------------------------------------------------------ *)
(** ** The tone adjuster *)

Lemma max_cases (a b : Q) :
  (a < b /\ Num.max a b = b) \/ (b <= a /\ Num.max a b = a).
Proof.
  unfold Num.max. destruct (a <? b) eqn:e.
  - left. now rewrite <- ltb_lt.
  - right. now rewrite <- ltb_ge.
Qed.

Lemma min_cases (a b : Q) :
  (b < a /\ Num.min a b = b) \/ (a <= b /\ Num.min a b = a).
Proof.
  unfold Num.min. destruct (b <? a) eqn:e.
  - left. now rewrite <- ltb_lt.
  - right. now rewrite <- ltb_ge.
Qed.

Lemma clamp_cases (a : Q) :
  (a < 0 /\ Spec.clamp 0 255 a = 0) \/ (255 < a /\ Spec.clamp 0 255 a = 255)
  \/ (0 <= a <= 255 /\ Spec.clamp 0 255 a = a).
Proof.
  unfold Spec.clamp. destruct (a <? 0) eqn:e1.
  - left. now rewrite <- ltb_lt.
  - destruct (255 <? a) eqn:e2.
    + right; left. now rewrite <- ltb_lt.
    + right; right. now rewrite <- !ltb_ge.
Qed.

(** The expression the code assigns is the specification's formula. *)
Lemma adjusted_tone (contrast brightness : Q) (v : Z) :
  Tone.adjusted contrast brightness v
  == Spec.tone contrast brightness (inject_Z v).
Proof.
  unfold Tone.adjusted, Spec.tone.
  set (a := (inject_Z v - 128) * (contrast / 100) + 128
            + (brightness - 100) * (255 # 100)).
  clearbody a.
  destruct (clamp_cases a) as [(h & e)|[(h & e)|(h & e)]]; rewrite e; clear e;
    (destruct (max_cases 0 a) as [(h1 & e1)|(h1 & e1)]; rewrite e1; clear e1;
     [destruct (min_cases 255 a) as [(h2 & e2)|(h2 & e2)]
     |destruct (min_cases 255 0) as [(h2 & e2)|(h2 & e2)]];
     rewrite e2; clear e2; lra).
Qed.

Lemma clamp_range (a : Q) : 0 <= Spec.clamp 0 255 a <= 255.
Proof.
  destruct (clamp_cases a) as [(h & ->)|[(h & ->)|(h & ->)]]; lra.
Qed.

Lemma floor_bounds (a : Q) :
  inject_Z (Qfloor a) <= a /\ a < inject_Z (Qfloor a) + 1.
Proof.
  split; [apply Qfloor_le|].
  pose proof (Qlt_floor a) as h. rewrite inject_Z_plus in h. exact h.
Qed.

(** Storing a number of [0, 255] into the byte array keeps the nearest
    integer, the even one when two are as near. *)
Lemma toUint8Clamp_nearest (a : Q) :
  0 <= a <= 255 ->
  let n := Num.toUint8Clamp a in
  (0 <= n <= 255)%Z
  /\ Qabs (inject_Z n - a) <= 1 # 2
  /\ (Qabs (inject_Z n - a) == 1 # 2 -> Z.even n = true).
Proof.
  intros ha. unfold Num.toUint8Clamp.
  set (c := Num.min 255 (Num.max 0 a)).
  assert (hc : c == a).
  { subst c.
    destruct (max_cases 0 a) as [(h1 & e1)|(h1 & e1)]; rewrite e1; clear e1;
      [destruct (min_cases 255 a) as [(h2 & e2)|(h2 & e2)]
      |destruct (min_cases 255 0) as [(h2 & e2)|(h2 & e2)]];
      rewrite e2; clear e2; lra. }
  clearbody c. cbv zeta. rewrite <- hc. rewrite <- hc in ha. clear hc a.
  set (f := Qfloor c).
  destruct (floor_bounds c) as [lo hi]. fold f in lo, hi.
  assert (hf : (0 <= f <= 255)%Z).
  { split.
    - change (Qfloor 0 <= Qfloor c)%Z. apply Qfloor_resp_le. lra.
    - change (Qfloor c <= Qfloor 255)%Z. apply Qfloor_resp_le. lra. }
  clearbody f.
  assert (h255 : inject_Z 255 == 255) by reflexivity.
  assert (h1 : inject_Z 1 == 1) by reflexivity.
  assert (hf' : (f <= 254)%Z \/ inject_Z f == 255) by
    (destruct (Z.eq_dec f 255) as [->|]; [right; reflexivity | left; lia]).
  destruct (inject_Z f + (1 # 2) <? c) eqn:ea;
    [apply ltb_lt in ea | apply ltb_ge in ea;
      destruct (c <? inject_Z f + (1 # 2)) eqn:eb;
      [apply ltb_lt in eb | apply ltb_ge in eb;
        destruct (Z.even f) eqn:ev]]; cbv iota.
  - rewrite inject_Z_plus. split; [destruct hf'; [lia | exfalso; lra]|]. split.
    + apply Qabs_Qle_condition. lra.
    + intro t. exfalso. revert t. apply Qabs_case; intros; lra.
  - split; [lia|]. split.
    + apply Qabs_Qle_condition. lra.
    + intro t. exfalso. revert t. apply Qabs_case; intros; lra.
  - split; [lia|]. split; [apply Qabs_Qle_condition; lra | easy].
  - rewrite inject_Z_plus. split; [destruct hf'; [lia | exfalso; lra]|]. split.
    + apply Qabs_Qle_condition. lra.
    + intros _. rewrite Z.even_add, ev. reflexivity.
Qed.

Lemma channel_nearest (contrast brightness : Q) (v : Z) :
  let ideal := Spec.tone contrast brightness (inject_Z v) in
  let out := Tone.channel contrast brightness v in
  (0 <= out <= 255)%Z
  /\ Qabs (inject_Z out - ideal) <= 1 # 2
  /\ (Qabs (inject_Z out - ideal) == 1 # 2 -> Z.even out = true).
Proof.
  cbv zeta. unfold Tone.channel.
  assert (r : 0 <= Tone.adjusted contrast brightness v <= 255).
  { rewrite adjusted_tone. apply clamp_range. }
  pose proof (toUint8Clamp_nearest _ r) as h. cbv zeta in h.
  set (out := Num.toUint8Clamp _) in *. clearbody out.
  rewrite adjusted_tone in h. exact h.
Qed.

Lemma channel_identity (v : Z) :
  (0 <= v <= 255)%Z -> Tone.channel 100 100 v = v.
Proof.
  intro hv. destruct (channel_nearest 100 100 v) as (_ & near & _).
  assert (e : Spec.tone 100 100 (inject_Z v) == inject_Z v).
  { unfold Spec.tone.
    assert (hq : 0 <= inject_Z v <= 255).
    { split; [change 0 with (inject_Z 0) | change 255 with (inject_Z 255)];
        rewrite <- Zle_Qle; lia. }
    set (a := (inject_Z v - 128) * (100 / 100) + 128
              + (100 - 100) * (255 # 100)).
    assert (ea : a == inject_Z v) by (subst a; field).
    destruct (clamp_cases a) as [(h & ->)|[(h & ->)|(h & ->)]]; lra. }
  rewrite e in near. apply Qabs_Qle_condition in near.
  set (out := Tone.channel 100 100 v) in *. clearbody out.
  destruct near as [lo hi].
  assert (l1 : inject_Z (v + -1) < inject_Z out).
  { rewrite inject_Z_plus. change (inject_Z (-1)) with (-(1)). lra. }
  assert (l2 : inject_Z out < inject_Z (v + 1)).
  { rewrite inject_Z_plus. change (inject_Z 1) with 1. lra. }
  rewrite <- Zlt_Qlt in l1, l2. lia.
Qed.

Lemma applyContrastBrightness_identity (data : list Z) :
  Forall (fun v => (0 <= v <= 255)%Z) data ->
  Tone.applyContrastBrightness 100 100 data = data.
Proof.
  assert (gen : forall n data, (length data <= n)%nat ->
                Forall (fun v => (0 <= v <= 255)%Z) data ->
                Tone.applyContrastBrightness 100 100 data = data).
  { clear data. induction n as [|n ih]; intros data hl hd.
    - destruct data; [reflexivity | simpl in hl; lia].
    - destruct data as [|r [|g [|b [|a rest]]]]; simpl;
        repeat match goal with
               | h : Forall _ (_ :: _) |- _ => inversion h; subst; clear h
               end;
        rewrite ?channel_identity by assumption; try reflexivity.
      rewrite ih; [reflexivity | simpl in hl; lia | assumption]. }
  apply (gen (length data)). lia.
Qed.




(* ------------------------------------------------------------------ *)
(** ** Ordered dithering *)

Lemma dark_compat (g t t' : Q) : t == t' -> dark g t = dark g t'.
Proof. intro e. unfold dark. now rewrite (ltb_compat g g t t'). Qed.

Lemma mapi_from_nth {A B} (f : A -> Z -> B) (a : list A) (i0 : Z) (n : nat)
  (d : B) (d' : A) :
  (n < length a)%nat ->
  nth n (mapi_from f i0 a) d = f (nth n a d') (i0 + Z.of_nat n)%Z.
Proof.
  revert i0 n. induction a as [|v a ih]; intros i0 [|n] h; simpl in h; try lia.
  - simpl. f_equal. lia.
  - cbn [mapi_from nth]. rewrite ih by lia. f_equal. lia.
Qed.

Lemma mapi_get {A B} (f : A -> Z -> B) (a : list A) (i : Z) (d : B) (d' : A) :
  (0 <= i < Z.of_nat (length a))%Z ->
  get d (mapi f a) i = f (get d' a i) i.
Proof.
  intro h. unfold get, mapi.
  replace (i <? 0)%Z with false by (symmetry; apply Z.ltb_ge; lia).
  rewrite (mapi_from_nth f a 0 _ d d') by lia. f_equal. lia.
Qed.

(** The code's threshold at index [y * W + x] is the specification's
    at cell [(x, y)]. *)
Lemma ordered_threshold_cell (W : Z) (t ds : Q) (y x : Z) :
  (0 <= y)%Z -> (0 <= x < W)%Z ->
  ordered_threshold W t ds (y * W + x) == Spec.ordered_threshold t ds y x.
Proof.
  intros hy hx. unfold ordered_threshold, Spec.ordered_threshold.
  assert (ex : Z.rem (y * W + x) W = x).
  { rewrite Z.rem_mod_nonneg by nia.
    rewrite Z.add_comm, Z.mod_add by lia. apply Z.mod_small. lia. }
  assert (ey : ((y * W + x) / W)%Z = y).
  { rewrite Z.add_comm, Z.div_add by lia. rewrite Z.div_small; lia. }
  rewrite ex, ey.
  assert (hy4 : (0 <= y mod 4 < 4)%Z) by (apply Z.mod_pos_bound; lia).
  assert (hx4 : (0 <= x mod 4 < 4)%Z) by (apply Z.mod_pos_bound; lia).
  rewrite !Z.rem_mod_nonneg by lia.
  assert (e : get 0 (get [] bayer (y mod 4)) (x mod 4)
              = inject_Z (Spec.bayer_entry y x)).
  { unfold Spec.bayer_entry.
    assert (cy : (y mod 4 = 0 \/ y mod 4 = 1 \/ y mod 4 = 2 \/ y mod 4 = 3)%Z)
      by lia.
    assert (cx : (x mod 4 = 0 \/ x mod 4 = 1 \/ x mod 4 = 2 \/ x mod 4 = 3)%Z)
      by lia.
    destruct cy as [-> | [-> | [-> | ->]]];
      destruct cx as [-> | [-> | [-> | ->]]]; reflexivity. }
  rewrite e. reflexivity.
Qed.

Lemma ordered_zero_strength (W : Z) (t : Q) (gray : list Q) :
  ordered W t 0 gray = simple t gray.
Proof.
  unfold ordered, simple, mapi.
  assert (gen : forall i0,
             mapi_from (fun g i => dark g (ordered_threshold W t 0 i)) i0 gray
             = map (fun g => dark g t) gray).
  { induction gray as [|g gray ih]; intro i0; simpl; [reflexivity|].
    rewrite ih. f_equal. apply dark_compat. unfold ordered_threshold. field. }
  apply gen.
Qed.



(* ------------------------------------------------------------------ *)
(** ** The switch on the algorithm *)

(** C9, as the code has it.  An algorithm identifier that is none of
    the six cases of the switch, known to the interface or not, runs
    the simple threshold with the current threshold: the switch has a
    default branch and [generatePattern] hands a pattern to its caller,
    it has no failure result. *)
Theorem unknown_algorithm_runs_simple :
  forall (st : settings) (gray : list Q),
    ~ In (algorithm st)
         ["otsu"; "floydSteinberg"; "atkinson"; "ordered"; "sobel";
          "adaptive"]%string ->
    run st gray = simple (threshold st) gray
    /\ forall data : list Z,
        generatePattern st (Some data)
        = Some (assemble (gridWidth st) (gridHeight st)
                  (invert (invertColors st)
                     (simple (threshold st)
                        (Tone.grayOf
                           (Tone.applyContrastBrightness
                              (contrast st) (brightness st) data))))).
Proof.
  intros st gray hn.
  assert (e : forall g, run st g = simple (threshold st) g).
  { intro g. unfold run.
    repeat match goal with
           | |- context [String.eqb ?a ?b] =>
               destruct (String.eqb_spec a b) as [e | _];
               [exfalso; apply hn; rewrite e; simpl; tauto|]
           end.
    reflexivity. }
  split; [apply e|]. intro data. unfold generatePattern, patternOf.
  now rewrite e.
Qed.

Lemma unknown_algorithm_runs_simple_witness :
  let st := Settings 2 2 128 false "spiral" 100 100 40 11 100 in
  run st [0; 255; 255; 0] = simple 128 [0; 255; 255; 0].
Proof.
  refine (proj1 (unknown_algorithm_runs_simple
                   (Settings 2 2 128 false "spiral" 100 100 40 11 100)
                   [0; 255; 255; 0] _)).
  simpl. intros [h|[h|[h|[h|[h|[h|[]]]]]]]; discriminate h.
Defined.

(** C9 as stated fails: with the identifier ["spiral"], which names no
    algorithm, a 2x2 black and white checkerboard yields the pattern
    of the simple threshold and not a failure. *)
Lemma unknown_algorithm_no_failure :
  let data := [0; 0; 0; 255; 255; 255; 255; 255;
               255; 255; 255; 255; 0; 0; 0; 255]%Z in
  let st := Settings 2 2 128 false "spiral" 100 100 40 11 100 in
  let simple_st := Settings 2 2 128 false "threshold" 100 100 40 11 100 in
  generatePattern st (Some data) <> None
  /\ generatePattern st (Some data) = Some [[1; 0]; [0; 1]]%Z
  /\ generatePattern st (Some data) = generatePattern simple_st (Some data).
Proof.
  cbv zeta. split; [|split]; vm_compute; congruence.
Qed.

(* ------------------------------------------------------------------ *)
(** ** The export *)

Section SplitJoin.

Local Open Scope string_scope.

Variable c : ascii.

Lemma split_single (s : string) :
  Spec.occurs c s = false -> Spec.split c s = [s].
Proof.
  induction s as [|a s ih]; simpl; [reflexivity|].
  destruct (Ascii.eqb a c); simpl; [discriminate|].
  intro h. now rewrite (ih h).
Qed.

Lemma split_app (s t : string) :
  Spec.occurs c s = false ->
  Spec.split c (s ++ String c t) = s :: Spec.split c t.
Proof.
  induction s as [|a s ih]; simpl.
  - now rewrite Ascii.eqb_refl.
  - destruct (Ascii.eqb a c); simpl; [discriminate|].
    intro h. now rewrite (ih h).
Qed.

Lemma occurs_app (s t : string) :
  Spec.occurs c (s ++ t) = Spec.occurs c s || Spec.occurs c t.
Proof.
  induction s as [|a s ih]; simpl; [reflexivity|].
  now rewrite ih, orb_assoc.
Qed.

Lemma split_join (l : list string) :
  l <> [] -> Forall (fun s => Spec.occurs c s = false) l ->
  Spec.split c (Csv.join (String c "") l) = l.
Proof.
  induction l as [|x [|y r] ih]; intros hne hl; [easy| |].
  - simpl. apply split_single. now inversion hl.
  - inversion hl as [|? ? hx hr]; subst.
    change (Csv.join (String c "") (x :: y :: r))
      with (x ++ String c (Csv.join (String c "") (y :: r))).
    rewrite split_app by assumption. f_equal. now apply ih.
Qed.

Lemma occurs_join (d : ascii) (l : list string) :
  Ascii.eqb d c = false ->
  Forall (fun s => Spec.occurs c s = false) l ->
  Spec.occurs c (Csv.join (String d "") l) = false.
Proof.
  intros hd. induction l as [|x [|y r] ih]; intro hl; [reflexivity| |].
  - simpl. now inversion hl.
  - inversion hl as [|? ? hx hr]; subst.
    change (Csv.join (String d "") (x :: y :: r))
      with (x ++ String d (Csv.join (String d "") (y :: r))).
    rewrite occurs_app, hx. simpl. rewrite hd. now apply ih.
Qed.

End SplitJoin.

Lemma mark_plain (ch : ascii) (cell : Z) :
  Ascii.eqb "X" ch = false -> Ascii.eqb "O" ch = false ->
  Spec.occurs ch (Csv.mark cell) = false.
Proof.
  intros hx ho. unfold Csv.mark.
  destruct (cell =? 1)%Z; cbn [Spec.occurs].
  - now rewrite hx.
  - now rewrite ho.
Qed.

Lemma csv_fields (pattern : list (list Z)) :
  pattern <> [] -> Forall (fun row => row <> []) pattern ->
  Spec.fields (Csv.csv pattern) = map (map Csv.mark) pattern.
Proof.
  intros hne hrows. unfold Spec.fields, Csv.csv, Csv.newline.
  rewrite split_join.
  - rewrite map_map. apply map_ext_in. intros row hin.
    rewrite Forall_forall in hrows. unfold Csv.comma.
    apply split_join.
    + intro e. apply map_eq_nil in e. now apply (hrows row).
    + apply Forall_forall. intros s hs. apply in_map_iff in hs.
      destruct hs as (cell & <- & _). now apply mark_plain.
  - intro e. apply map_eq_nil in e. contradiction.
  - apply Forall_forall. intros s hs. apply in_map_iff in hs.
    destruct hs as (row & <- & _). apply occurs_join; [reflexivity|].
    apply Forall_forall. intros m hm. apply in_map_iff in hm.
    destruct hm as (cell & <- & _). now apply mark_plain.
Qed.

(** C10, as the code has it.  The exporter offers, for a pattern with
    at least one row and no empty row, a text whose rows (separated by
    newlines) and columns (separated by commas) are the rows and cells
    of the grid in order, a cell 1 written ["X"] and a cell 0 written
    ["O"]; the file is named [crochet_pattern_{width}x{height}.csv]. *)
Theorem export_table :
  forall (W H : Z) (pattern : list (list Z)),
    pattern <> [] -> Forall (fun row => row <> []) pattern ->
    exists text : string,
      Csv.downloadCSV W H pattern
      = Some (("crochet_pattern_" ++ Csv.decimal W ++ "x" ++ Csv.decimal H
               ++ ".csv")%string, text)
      /\ Spec.fields text = map (map Csv.mark) pattern
      /\ Csv.mark 1 = "X"%string /\ Csv.mark 0 = "O"%string.
Proof.
  intros W H pattern hne hrows. exists (Csv.csv pattern).
  split; [|split; [now apply csv_fields | split; reflexivity]].
  unfold Csv.downloadCSV. destruct pattern; [contradiction | reflexivity].
Qed.

Lemma export_table_witness :
  exists text : string,
    Csv.downloadCSV 2 2 [[1; 0]; [0; 1]]%Z
    = Some ("crochet_pattern_2x2.csv"%string, text)
    /\ Spec.fields text = [["X"; "O"]; ["O"; "X"]]%string.
Proof.
  assert (h1 : [[1; 0]; [0; 1]]%Z <> []) by discriminate.
  assert (h2 : Forall (fun row : list Z => row <> []) [[1; 0]; [0; 1]]%Z)
    by (repeat constructor; discriminate).
  destruct (export_table 2 2 _ h1 h2) as (text & e & f & _).
  exists text. split; [exact e | exact f].
Defined.

(** C10 as stated fails on the name: the file of a 50x50 pattern is
    [crochet_pattern_50x50.csv], not [pattern_50x50]. *)
Lemma export_name_differs :
  ~ (forall (W H : Z) (pattern : list (list Z)) (name text : string),
        Csv.downloadCSV W H pattern = Some (name, text) ->
        name = ("pattern_" ++ Csv.decimal W ++ "x" ++ Csv.decimal H)%string).
Proof.
  intro h.
  specialize (h 50%Z 50%Z [[1%Z]] _ _ eq_refl). vm_compute in h.
  discriminate h.
Qed.

(* ------------------------------------------------------------------ *)
(** ** Loops that push one value per cell *)

Lemma fold_left_ext {A B} (f g : A -> B -> A) (l : list B) (a : A) :
  (forall a b, f a b = g a b) -> fold_left f l a = fold_left g l a.
Proof.
  intro e. revert a. induction l as [|b l ih]; intro a; simpl;
    [reflexivity | now rewrite e, ih].
Qed.

Lemma for_cells_ext {St} (W H : Z) (body body' : Z -> Z -> St -> St) (s : St) :
  (forall y x s, body y x s = body' y x s) ->
  for_cells W H body s = for_cells W H body' s.
Proof.
  intro e. rewrite !for_cells_fold. apply fold_left_ext. intros; apply e.
Qed.

(** When the body of the loops pushes exactly one value that does not
    depend on the values pushed before, the value of cell [(y, x)] is
    at index [y * W + x] of the result. *)
Lemma for_cells_value {A} (W H : Z) (body : Z -> Z -> list A -> list A)
  (f : Z -> Z -> A) (d : A) (y x : Z) :
  (forall y x acc, body y x acc = acc ++ [f y x]) ->
  (0 <= y < H)%Z -> (0 <= x < W)%Z ->
  get d (for_cells W H body []) (y * W + x) = f y x.
Proof.
  intros e hy hx.
  rewrite (for_cells_ext W H body (fun y x acc => acc ++ [f y x])) by exact e.
  now apply for_cells_push_nth.
Qed.

(* ------------------------------------------------------------------ *)
(** ** Edge detection *)

Lemma sqrt_gtb_real (s t : Q) :
  0 <= s -> (Num.sqrt_gtb s t = true <-> (sqrt (Q2R s) > Q2R t)%R).
Proof.
  intro hs. unfold Num.sqrt_gtb. rewrite orb_true_iff, !ltb_lt.
  pose proof (sqrt_pos (Q2R s)) as hp.
  assert (hs' : (0 <= Q2R s)%R)
    by (apply Qle_Rle in hs; now rewrite RMicromega.Q2R_0 in hs).
  destruct (Qlt_le_dec t 0) as [ht | ht].
  - split; [intros _ | now left].
    apply Qlt_Rlt in ht. rewrite RMicromega.Q2R_0 in ht. Lra.lra.
  - assert (ht' : (0 <= Q2R t)%R)
      by (apply Qle_Rle in ht; now rewrite RMicromega.Q2R_0 in ht).
    split.
    + intros [h | h]; [exfalso; lra|].
      apply Qlt_Rlt in h. rewrite Q2R_mult in h.
      rewrite <- (sqrt_square (Q2R t)) by assumption.
      apply sqrt_lt_1_alt. split; [|exact h].
      apply Rmult_le_pos; assumption.
    + intro h. right. apply Rlt_Qlt. rewrite Q2R_mult.
      apply sqrt_lt_0_alt. now rewrite sqrt_square.
Qed.

Lemma sobel_cell_push (W H : Z) (sens : Q) (gray : list Q) (y x : Z)
  (acc : list Z) :
  sobel_cell W H sens gray y x acc
  = acc ++ [nth 0 (sobel_cell W H sens gray y x []) 0%Z].
Proof.
  unfold sobel_cell.
  destruct ((x =? 0)%Z || (x =? W - 1)%Z || (y =? 0)%Z || (y =? H - 1)%Z);
    reflexivity.
Qed.

Lemma sobel_gradients (W : Z) (gray : list Q) (y x : Z) :
  let idx := fun i => get 0 gray i in
  let i := (y * W + x)%Z in
  - idx (i - W - 1)%Z + idx (i - W + 1)%Z - 2 * idx (i - 1)%Z
  + 2 * idx (i + 1)%Z - idx (i + W - 1)%Z + idx (i + W + 1)%Z
  == Spec.convolve3 Spec.sobel_x (Spec.luminance W gray) y x
  /\ - idx (i - W - 1)%Z - 2 * idx (i - W)%Z - idx (i - W + 1)%Z
     + idx (i + W - 1)%Z + 2 * idx (i + W)%Z + idx (i + W + 1)%Z
     == Spec.convolve3 Spec.sobel_y (Spec.luminance W gray) y x.
Proof.
  cbv zeta. unfold Spec.convolve3, Spec.luminance.
  cbn [flat_map map app Spec.total fold_right].
  replace ((y + -1) * W + (x + -1))%Z with (y * W + x - W - 1)%Z by ring.
  replace ((y + -1) * W + (x + 0))%Z with (y * W + x - W)%Z by ring.
  replace ((y + -1) * W + (x + 1))%Z with (y * W + x - W + 1)%Z by ring.
  replace ((y + 0) * W + (x + -1))%Z with (y * W + x - 1)%Z by ring.
  replace ((y + 0) * W + (x + 0))%Z with (y * W + x)%Z by ring.
  replace ((y + 0) * W + (x + 1))%Z with (y * W + x + 1)%Z by ring.
  replace ((y + 1) * W + (x + -1))%Z with (y * W + x + W - 1)%Z by ring.
  replace ((y + 1) * W + (x + 0))%Z with (y * W + x + W)%Z by ring.
  replace ((y + 1) * W + (x + 1))%Z with (y * W + x + W + 1)%Z by ring.
  unfold Spec.kernel_entry, Spec.sobel_x, Spec.sobel_y. cbn [Z.to_nat nth].
  split.
  - change (Z.to_nat (-1 + 1)) with 0%nat. change (Z.to_nat (0 + 1)) with 1%nat.
    change (Z.to_nat (1 + 1)) with 2%nat. cbn [nth]. ring.
  - change (Z.to_nat (-1 + 1)) with 0%nat. change (Z.to_nat (0 + 1)) with 1%nat.
    change (Z.to_nat (1 + 1)) with 2%nat. cbn [nth]. ring.
Qed.

Lemma squares_nonneg (a b : Q) : 0 <= a * a + b * b.
Proof. nra. Qed.



(* ------------------------------------------------------------------ *)
(** ** The adaptive threshold *)

Lemma blockSize_odd (n : Z) :
  (3 <= n < 2 ^ 31)%Z -> blockSize n = Spec.odd_side n.
Proof.
  intro hn. unfold blockSize, Num.toInt32, Spec.odd_side.
  rewrite Z.mod_small by lia.
  replace (n + 2 ^ 31 - 2 ^ 31)%Z with n by lia.
  pose proof (Z.add_lor_land n 1) as e.
  change 1%Z with (Z.ones 1) in e at 2. rewrite Z.land_ones in e by lia.
  change (2 ^ 1)%Z with 2%Z in e.
  rewrite Zmod_even in e. destruct (Z.even n); lia.
Qed.

Lemma pairs_In (ys xs : list Z) (a b : Z) :
  In (a, b) (pairs ys xs) <-> In a ys /\ In b xs.
Proof.
  unfold pairs. rewrite in_flat_map. split.
  - intros (y & hy & h). apply in_map_iff in h. destruct h as (x & e & hx).
    inversion e; subst. tauto.
  - intros (ha & hb). exists a. split; [assumption|].
    apply in_map_iff. now exists b.
Qed.

Lemma pairs_NoDup (ys xs : list Z) :
  NoDup ys -> NoDup xs -> NoDup (pairs ys xs).
Proof.
  intros hy hx. induction hy as [|y ys hn hy ih]; simpl; [constructor|].
  apply NoDup_app.
  - apply Finite.Injective_map_NoDup; [|assumption].
    intros a b e. now inversion e.
  - exact ih.
  - intros [a b] h1 h2. apply in_map_iff in h1. destruct h1 as (x & e & _).
    inversion e; subst. apply pairs_In in h2. tauto.
Qed.

Lemma upto_NoDup (n : Z) : NoDup (upto n).
Proof.
  unfold upto. apply Finite.Injective_map_NoDup; [|apply seq_NoDup].
  intros a b. apply Nat2Z.inj.
Qed.

Lemma span_In (lo hi i : Z) : In i (span lo hi) <-> (lo <= i <= hi)%Z.
Proof.
  unfold span. rewrite in_map_iff. split.
  - intros (k & <- & hk). apply upto_In in hk. lia.
  - intro h. exists (i - lo)%Z. rewrite upto_In. lia.
Qed.

Lemma span_NoDup (lo hi : Z) : NoDup (span lo hi).
Proof.
  unfold span. apply Finite.Injective_map_NoDup; [|apply upto_NoDup].
  intros a b. lia.
Qed.

Lemma for_range_fold {St} (lo hi : Z) (body : Z -> St -> St) (s : St) :
  for_range lo hi body s = fold_left (fun s i => body i s) (span lo hi) s.
Proof.
  unfold for_range, span. generalize (upto (hi - lo + 1)) as l. intro l.
  revert s. induction l as [|k l ih]; intro s; simpl; [reflexivity | apply ih].
Qed.

Lemma fold_left_flat_map {A B C} (f : A -> C -> A) (g : B -> list C)
  (l : list B) (a : A) :
  fold_left f (flat_map g l) a
  = fold_left (fun a b => fold_left f (g b) a) l a.
Proof.
  revert a. induction l as [|b l ih]; intro a; simpl; [reflexivity|].
  now rewrite fold_left_app, ih.
Qed.

Lemma fold_left_pairs {A} (f : A -> Z * Z -> A) (ys xs : list Z) (a : A) :
  fold_left f (pairs ys xs) a
  = fold_left (fun a y => fold_left (fun a x => f a (y, x)) xs a) ys a.
Proof.
  unfold pairs. rewrite fold_left_flat_map. apply fold_left_ext.
  intros a' y. generalize xs as l. intro l. revert a'.
  induction l as [|x l ih]; intro a'; simpl; [reflexivity | apply ih].
Qed.

Lemma total_perm (l l' : list Q) :
  Permutation l l' -> Spec.total l == Spec.total l'.
Proof.
  induction 1 as [|a l l' _ ih|a b l|l l' l'' _ ih1 _ ih2]; simpl.
  - reflexivity.
  - now rewrite ih.
  - ring.
  - now rewrite ih1.
Qed.

Section Window.

Variables (W H half : Z) (gray : list Q) (y x : Z).

(** The guard and the update of the innermost loop body, on an offset. *)
Let inside (o : Z * Z) : bool :=
  ((y + fst o >=? 0) && (y + fst o <? H)
   && (x + snd o >=? 0) && (x + snd o <? W))%Z.

Let shift (o : Z * Z) : Z * Z := ((y + fst o)%Z, (x + snd o)%Z).

Let lum (c : Z * Z) : Q := Spec.luminance W gray (fst c) (snd c).

Lemma window_sum_fold :
  window_sum W H half gray y x
  = fold_left
      (fun acc o =>
         if inside o
         then (fst acc + lum (shift o), (snd acc + 1)%Z)
         else acc)
      (pairs (span (- half) half) (span (- half) half)) (0, 0%Z).
Proof.
  unfold window_sum. rewrite fold_left_pairs, for_range_fold.
  apply fold_left_ext. intros acc dy. rewrite for_range_fold.
  apply fold_left_ext. intros [sum count] dx. reflexivity.
Qed.

Lemma window_fold_total (l : list (Z * Z)) (acc : Q * Z) :
  let r := fold_left
             (fun acc o =>
                if inside o
                then (fst acc + lum (shift o), (snd acc + 1)%Z)
                else acc) l acc in
  fst r == fst acc + Spec.total (map lum (map shift (filter inside l)))
  /\ snd r = (snd acc + Z.of_nat (length (filter inside l)))%Z.
Proof.
  cbv zeta. revert acc. induction l as [|o l ih]; intro acc.
  - cbn [fold_left filter map Spec.total fold_right length].
    split; [lra | lia].
  - cbn [fold_left filter]. destruct (inside o).
    + destruct (ih (fst acc + lum (shift o), (snd acc + 1)%Z)) as [e1 e2].
      rewrite e1, e2.
      change (map lum (map shift (o :: filter inside l)))
        with (lum (shift o) :: map lum (map shift (filter inside l))).
      set (v := lum (shift o)).
      set (rest := map lum (map shift (filter inside l))).
      cbn [fst snd length Spec.total fold_right]. fold (Spec.total rest).
      split; [lra | lia].
    + apply ih.
Qed.

Lemma window_cells :
  Permutation
    (map shift
       (filter inside (pairs (span (- half) half) (span (- half) half))))
    (filter (fun c => (Z.abs (fst c - y) <=? half)%Z
                      && (Z.abs (snd c - x) <=? half)%Z)
            (cells W H)).
Proof.
  apply NoDup_Permutation.
  - apply Finite.Injective_map_NoDup.
    + intros [a b] [a' b'] e. unfold shift in e. simpl in e.
      inversion e. f_equal; lia.
    + apply NoDup_filter, pairs_NoDup; apply span_NoDup.
  - apply NoDup_filter, pairs_NoDup; apply upto_NoDup.
  - intros [a b]. rewrite in_map_iff, filter_In. unfold cells.
    rewrite pairs_In, !upto_In. cbn [fst snd].
    rewrite andb_true_iff, !Z.leb_le. split.
    + intros ([dy dx] & e & h). apply filter_In in h. destruct h as [h g].
      apply pairs_In in h. rewrite !span_In in h. unfold inside in g.
      cbn [fst snd] in g. rewrite !andb_true_iff, !Z.geb_le, !Z.ltb_lt in g.
      unfold shift in e. cbn [fst snd] in e. inversion e; subst. lia.
    + intros (hg & hw). exists ((a - y)%Z, (b - x)%Z). split.
      * unfold shift. cbn [fst snd]. f_equal; lia.
      * apply filter_In. rewrite pairs_In, !span_In. split; [lia|].
        unfold inside. cbn [fst snd].
        rewrite !andb_true_iff, !Z.geb_le, !Z.ltb_lt. lia.
Qed.

Lemma window_sum_spec :
  let nb := filter (fun c => (Z.abs (fst c - y) <=? half)%Z
                             && (Z.abs (snd c - x) <=? half)%Z)
                   (cells W H) in
  fst (window_sum W H half gray y x) == Spec.total (map lum nb)
  /\ snd (window_sum W H half gray y x) = Z.of_nat (length nb).
Proof.
  cbv zeta. rewrite window_sum_fold.
  destruct (window_fold_total
              (pairs (span (- half) half) (span (- half) half)) (0, 0%Z))
    as [e1 e2].
  cbv zeta in e1, e2. rewrite e1, e2. cbn [fst snd]. split.
  - rewrite (total_perm _ _ (Permutation_map lum window_cells)). lra.
  - rewrite <- (Permutation_length window_cells), length_map. lia.
Qed.

End Window.

Lemma adaptive_cell_push (W H : Z) (t : Q) (half : Z) (gray : list Q)
  (y x : Z) (acc : list Z) :
  adaptive_cell W H t half gray y x acc
  = acc ++ [dark (get 0 gray (y * W + x))
                 (fst (window_sum W H half gray y x)
                  / inject_Z (snd (window_sum W H half gray y x))
                  - (t - 128) / 4)].
Proof.
  unfold adaptive_cell. now destruct (window_sum W H half gray y x).
Qed.



(* ------------------------------------------------------------------ *)
(** ** Scans that carry a buffer and push one value per cell *)

Section Scan.

Context {E : Type}.
Variable step : E * list Z -> Z * Z -> E * list Z.
Variable out : E -> Z * Z -> Z.
Hypothesis step_push :
  forall st c, snd (step st c) = snd st ++ [out (fst st) c].

Lemma scan_length (l : list (Z * Z)) (st : E * list Z) :
  length (snd (fold_left step l st)) = (length (snd st) + length l)%nat.
Proof.
  revert st. induction l as [|c l ih]; intro st; simpl; [lia|].
  rewrite ih, step_push, length_app. simpl. lia.
Qed.

Lemma scan_keeps (l : list (Z * Z)) (st : E * list Z) :
  exists tail, snd (fold_left step l st) = snd st ++ tail.
Proof.
  revert st. induction l as [|c l ih]; intro st; simpl.
  - exists []. now rewrite app_nil_r.
  - destruct (ih (step st c)) as (tail & e). rewrite e, step_push.
    exists (out (fst st) c :: tail). now rewrite <- app_assoc.
Qed.

(** The value pushed for the [k]-th cell is computed from the buffer
    as it is when the scan reaches that cell. *)
Lemma scan_nth (l : list (Z * Z)) (st : E * list Z) (k : nat) (d : Z)
  (dc : Z * Z) :
  snd st = [] -> (k < length l)%nat ->
  nth k (snd (fold_left step l st)) d
  = out (fst (fold_left step (firstn k l) st)) (nth k l dc).
Proof.
  intros hst hk.
  rewrite <- (firstn_skipn k l) at 1. rewrite fold_left_app.
  set (st1 := fold_left step (firstn k l) st).
  assert (len : length (snd st1) = k).
  { subst st1. rewrite scan_length, hst, length_firstn. simpl. lia. }
  destruct (skipn k l) as [|c rest] eqn:es.
  - exfalso. apply (f_equal (@length _)) in es. rewrite length_skipn in es.
    simpl in es. lia.
  - assert (ec : nth k l dc = c).
    { rewrite <- (firstn_skipn k l), es, app_nth2; rewrite length_firstn;
        [|lia]. replace (k - Nat.min k (length l))%nat with 0%nat by lia.
      reflexivity. }
    rewrite ec. simpl.
    destruct (scan_keeps rest (step st1 c)) as (tail & e).
    rewrite e, step_push, <- app_assoc, app_nth2 by lia.
    rewrite len, Nat.sub_diag. reflexivity.
Qed.

End Scan.

Lemma quantize_black (old t : Q) :
  (black (quantize old t) = 1%Z <-> old < t)
  /\ (black (quantize old t) = 0%Z <-> ~ old < t).
Proof.
  unfold black, quantize. rewrite <- ltb_lt.
  destruct (old <? t); simpl; intuition congruence.
Qed.

(** The cell of a dithering scan's result, from the state the scan has
    reached. *)
Lemma dither_cell (W H : Z) (body : Z -> Z -> dither -> dither) (t : Q)
  (gray : list Q) (y x : Z) :
  (forall y x st,
      snd (body y x st)
      = snd st ++ [black (quantize (get 0 (fst st) (y * W + x)) t)]) ->
  (0 <= y < H)%Z -> (0 <= x < W)%Z ->
  get 0%Z (snd (for_cells W H body (gray, []))) (y * W + x)
  = black (quantize
             (get 0 (fst (reached W H body (gray, []) y x)) (y * W + x)) t).
Proof.
  intros hb hy hx. rewrite for_cells_fold. unfold reached.
  unfold get at 1.
  replace (y * W + x <? 0)%Z with false by (symmetry; apply Z.ltb_ge; nia).
  rewrite (scan_nth (fun st c => body (fst c) (snd c) st)
             (fun e c => black (quantize (get 0 e (fst c * W + snd c)) t))
             (fun st c => hb (fst c) (snd c) st)
             (cells W H) (gray, []) _ 0%Z (0%Z, 0%Z) eq_refl)
    by (rewrite cells_length; nia).
  rewrite cells_nth by assumption. reflexivity.
Qed.

(* ------------------------------------------------------------------ *)
(** ** Error diffusion *)

Lemma same_refl (a : list Q) : same a a.
Proof. induction a; constructor; [reflexivity | assumption]. Qed.

Lemma same_trans (a b c : list Q) : same a b -> same b c -> same a c.
Proof.
  intro h. revert c. induction h as [|x y a b e _ ih]; intros c hc;
    inversion hc; subst; constructor; [now rewrite e | now apply ih].
Qed.

Lemma add_at_same (i i' : Z) (v v' : Q) (a b : list Q) :
  i = i' -> v == v' -> same a b -> same (add_at i v a) (add_at i' v' b).
Proof.
  intros <- ev h. unfold add_at, alter_at. destruct (i <? 0)%Z; [exact h|].
  generalize (Z.to_nat i) as n. induction h as [|x y a b e h ih]; intro n.
  - destruct n; constructor.
  - destruct n; simpl; constructor; auto; try apply ih.
    now rewrite e, ev.
Qed.

Lemma total_same (a b : list Q) : same a b -> Spec.total a == Spec.total b.
Proof.
  induction 1 as [|x y a b e _ ih]; simpl; [reflexivity | now rewrite e, ih].
Qed.

Lemma total_cons (v : Q) (a : list Q) :
  Spec.total (v :: a) = v + Spec.total a.
Proof. reflexivity. Qed.

Lemma same_length (a b : list Q) : same a b -> length a = length b.
Proof. induction 1; simpl; congruence. Qed.

Lemma add_at_length (i : Z) (v : Q) (a : list Q) :
  length (add_at i v a) = length a.
Proof.
  unfold add_at, alter_at. destruct (i <? 0)%Z; [reflexivity|].
  generalize (Z.to_nat i) as n. induction a as [|x a ih]; intros [|n]; simpl;
    auto.
Qed.

Lemma total_add_at (i : Z) (v : Q) (a : list Q) :
  (0 <= i < Z.of_nat (length a))%Z ->
  Spec.total (add_at i v a) == Spec.total a + v.
Proof.
  intro h. unfold add_at, alter_at.
  replace (i <? 0)%Z with false by (symmetry; apply Z.ltb_ge; lia).
  assert (hn : (Z.to_nat i < length a)%nat) by lia. revert hn.
  generalize (Z.to_nat i) as n. clear h.
  induction a as [|x a ih]; intros [|n] hn; simpl in *; try lia.
  - ring.
  - rewrite ih by lia. ring.
Qed.

Lemma in_grid_spec (W H y x : Z) :
  Spec.in_grid W H y x = true <-> (0 <= x < W)%Z /\ (0 <= y < H)%Z.
Proof.
  unfold Spec.in_grid. rewrite !andb_true_iff, !Z.leb_le, !Z.ltb_lt. lia.
Qed.

Lemma diffuse_length (W H : Z) (K : Spec.kernel) (e : Q) (y x : Z)
  (buf : list Q) :
  length (Spec.diffuse W H K e y x buf) = length buf.
Proof.
  unfold Spec.diffuse. revert buf.
  induction K as [|[[dx dy] w] K ih]; intro buf; simpl; [reflexivity|].
  rewrite ih.
  destruct (Spec.in_grid _ _ _ _); [apply add_at_length | reflexivity].
Qed.

(** What diffusion adds to a buffer that covers the grid is the total
    of the shares of the neighbours inside the grid. *)
Lemma diffuse_total (W H : Z) (K : Spec.kernel) (e : Q) (y x : Z)
  (buf : list Q) :
  Z.of_nat (length buf) = (W * H)%Z ->
  Spec.total (Spec.diffuse W H K e y x buf)
  == Spec.total buf + Spec.propagated W H K e y x.
Proof.
  unfold Spec.diffuse, Spec.propagated. revert buf.
  induction K as [|[[dx dy] w] K ih]; intros buf hl; cbn [fold_left map].
  - change (Spec.total []) with 0. ring.
  - rewrite total_cons.
    destruct (Spec.in_grid W H (y + dy) (x + dx)) eqn:g.
    + rewrite ih by (rewrite add_at_length; exact hl).
      apply in_grid_spec in g. rewrite total_add_at by nia. ring.
    + rewrite ih by exact hl. ring.
Qed.

Lemma in_grid_guard (W H y x : Z) (b : bool) :
  (b = true <-> (0 <= x < W)%Z /\ (0 <= y < H)%Z) ->
  Spec.in_grid W H y x = b.
Proof.
  intro h. rewrite <- in_grid_spec in h.
  destruct (Spec.in_grid W H y x), b; intuition congruence.
Qed.

Ltac guard_tac := rewrite ?andb_true_iff, ?Z.ltb_lt, ?Z.gtb_lt; lia.

Ltac same_tac :=
  repeat (apply add_at_same; [ring | field |]); apply same_refl.

(** One step of the Floyd-Steinberg scan pushes the quantized cell and
    diffuses the scaled error with the Floyd-Steinberg kernel. *)
Lemma fs_cell_diffuse (W H : Z) (t s : Q) (y x : Z) (err : list Q)
  (result : list Z) :
  (0 <= y < H)%Z -> (0 <= x < W)%Z ->
  let old := get 0 err (y * W + x) in
  let newVal := quantize old t in
  snd (fs_cell W H t s y x (err, result)) = result ++ [black newVal]
  /\ same (fst (fs_cell W H t s y x (err, result)))
          (Spec.diffuse W H Spec.floyd_steinberg ((old - newVal) * s) y x err).
Proof.
  intros hy hx. cbv zeta. unfold fs_cell. cbn [fst snd].
  split; [now destruct (y + 1 <? H)%Z|].
  unfold Spec.diffuse, Spec.floyd_steinberg. cbn [fold_left].
  rewrite (in_grid_guard W H (y + 0) (x + 1) (x + 1 <? W)%Z) by guard_tac.
  rewrite (in_grid_guard W H (y + 1) (x + -1) ((y + 1 <? H) && (x >? 0))%Z)
    by guard_tac.
  rewrite (in_grid_guard W H (y + 1) (x + 0) (y + 1 <? H)%Z) by guard_tac.
  rewrite (in_grid_guard W H (y + 1) (x + 1) ((y + 1 <? H) && (x + 1 <? W))%Z)
    by guard_tac.
  destruct (x + 1 <? W)%Z, (y + 1 <? H)%Z, (x >? 0)%Z; cbn [andb]; same_tac.
Qed.

(** The same for the Atkinson scan and kernel. *)
Lemma atk_cell_diffuse (W H : Z) (t s : Q) (y x : Z) (err : list Q)
  (result : list Z) :
  (0 <= y < H)%Z -> (0 <= x < W)%Z ->
  let old := get 0 err (y * W + x) in
  let newVal := quantize old t in
  snd (atk_cell W H t s y x (err, result)) = result ++ [black newVal]
  /\ same (fst (atk_cell W H t s y x (err, result)))
          (Spec.diffuse W H Spec.atkinson ((old - newVal) * s) y x err).
Proof.
  intros hy hx. cbv zeta. unfold atk_cell. cbn [fst snd].
  split; [reflexivity|].
  unfold Spec.diffuse, Spec.atkinson. cbn [fold_left].
  rewrite (in_grid_guard W H (y + 0) (x + 1) (x + 1 <? W)%Z) by guard_tac.
  rewrite (in_grid_guard W H (y + 0) (x + 2) (x + 2 <? W)%Z) by guard_tac.
  rewrite (in_grid_guard W H (y + 1) (x + -1) ((y + 1 <? H) && (x >? 0))%Z)
    by guard_tac.
  rewrite (in_grid_guard W H (y + 1) (x + 0) (y + 1 <? H)%Z) by guard_tac.
  rewrite (in_grid_guard W H (y + 1) (x + 1) ((y + 1 <? H) && (x + 1 <? W))%Z)
    by guard_tac.
  rewrite (in_grid_guard W H (y + 2) (x + 0) (y + 2 <? H)%Z) by guard_tac.
  destruct (x + 1 <? W)%Z, (x + 2 <? W)%Z, (y + 1 <? H)%Z, (x >? 0)%Z,
    (y + 2 <? H)%Z; cbn [andb]; same_tac.
Qed.

Lemma fs_cell_length (W H : Z) (t s : Q) (y x : Z) (st : dither) :
  length (fst (fs_cell W H t s y x st)) = length (fst st).
Proof.
  destruct st as [err result]. unfold fs_cell. cbn [fst].
  destruct (x + 1 <? W)%Z, (y + 1 <? H)%Z, (x >? 0)%Z;
    now rewrite ?add_at_length.
Qed.

Lemma atk_cell_length (W H : Z) (t s : Q) (y x : Z) (st : dither) :
  length (fst (atk_cell W H t s y x st)) = length (fst st).
Proof.
  destruct st as [err result]. unfold atk_cell. cbn [fst].
  destruct (x + 1 <? W)%Z, (x + 2 <? W)%Z, (y + 1 <? H)%Z, (x >? 0)%Z,
    (y + 2 <? H)%Z; now rewrite ?add_at_length.
Qed.

Lemma reached_length (W H : Z) (body : Z -> Z -> dither -> dither)
  (st : dither) (y x : Z) :
  (forall y x st, length (fst (body y x st)) = length (fst st)) ->
  length (fst (reached W H body st y x)) = length (fst st).
Proof.
  intro hb. unfold reached.
  generalize (firstn (Z.to_nat (y * W + x)) (cells W H)) as l. intro l.
  revert st. induction l as [|c l ih]; intro st; simpl; [reflexivity|].
  now rewrite ih, hb.
Qed.

(** The state reached at a cell is the state from which the rest of the
    scan goes on with this cell. *)
Lemma reached_then {St} (W H : Z) (body : Z -> Z -> St -> St) (s : St)
  (y x : Z) :
  (0 <= y < H)%Z -> (0 <= x < W)%Z ->
  for_cells W H body s
  = fold_left (fun s c => body (fst c) (snd c) s)
              (skipn (S (Z.to_nat (y * W + x))) (cells W H))
              (body y x (reached W H body s y x)).
Proof.
  intros hy hx. rewrite for_cells_fold. unfold reached.
  set (k := Z.to_nat (y * W + x)).
  rewrite <- (firstn_skipn k (cells W H)) at 1. rewrite fold_left_app.
  assert (e : skipn k (cells W H) = (y, x) :: skipn (S k) (cells W H)).
  { rewrite <- (cells_nth W H y x (0%Z, 0%Z) hy hx). fold k.
    assert (hk : (k < length (cells W H))%nat)
      by (rewrite cells_length; nia).
    revert hk. generalize (cells W H) as l. generalize k as n.
    induction n as [|n ih]; intros [|c l] h; simpl in *;
      try lia; [reflexivity|]. apply ih. lia. }
  rewrite e. reflexivity.
Qed.

Lemma fs_propagated_interior (W H : Z) (e : Q) (y x : Z) :
  (0 <= y)%Z -> (0 < x)%Z -> (x + 1 < W)%Z -> (y + 1 < H)%Z ->
  Spec.propagated W H Spec.floyd_steinberg e y x == e.
Proof.
  intros. unfold Spec.propagated, Spec.floyd_steinberg. cbn [map].
  rewrite !total_cons. change (Spec.total []) with 0.
  rewrite !(in_grid_guard _ _ _ _ true) by (split; [lia | reflexivity]).
  field.
Qed.

Lemma atk_propagated_interior (W H : Z) (e : Q) (y x : Z) :
  (0 <= y)%Z -> (0 < x)%Z -> (x + 2 < W)%Z -> (y + 2 < H)%Z ->
  Spec.propagated W H Spec.atkinson e y x == (6 # 8) * e.
Proof.
  intros. unfold Spec.propagated, Spec.atkinson. cbn [map].
  rewrite !total_cons. change (Spec.total []) with 0.
  rewrite !(in_grid_guard _ _ _ _ true) by (split; [lia | reflexivity]).
  field.
Qed.





(* ------------------------------------------------------------------ *)
(** ** The automatic threshold *)

Lemma upto_app (a b : Z) :
  (0 <= a)%Z -> (0 <= b)%Z ->
  upto (a + b) = upto a ++ map (fun k => (a + k)%Z) (upto b).
Proof.
  intros ha hb. unfold upto at 1 2.
  replace (Z.to_nat (a + b)) with (Z.to_nat a + Z.to_nat b)%nat by lia.
  rewrite seq_app, map_app. f_equal. simpl.
  rewrite seq_from, !Z2Nat.id by lia. reflexivity.
Qed.

Lemma span_app (lo m hi : Z) :
  (lo <= m + 1)%Z -> (m <= hi)%Z ->
  span lo hi = span lo m ++ span (m + 1) hi.
Proof.
  intros h1 h2. unfold span.
  replace (hi - lo + 1)%Z with ((m - lo + 1) + (hi - (m + 1) + 1))%Z by lia.
  rewrite upto_app, map_app, map_map by lia. f_equal.
  apply map_ext. intro k. lia.
Qed.

Lemma span_empty (lo hi : Z) : (hi < lo)%Z -> span lo hi = [].
Proof.
  intro h. unfold span, upto.
  replace (Z.to_nat (hi - lo + 1)) with 0%nat by lia. reflexivity.
Qed.

Lemma span_one (i : Z) : span i i = [i].
Proof.
  unfold span. replace (i - i + 1)%Z with 1%Z by lia. simpl. f_equal. lia.
Qed.

Lemma span_cons (lo hi : Z) :
  (lo <= hi)%Z -> span lo hi = lo :: span (lo + 1) hi.
Proof.
  intro h. rewrite (span_app lo lo hi) by lia. now rewrite span_one.
Qed.

Lemma upto_span (n : Z) : upto n = span 0 (n - 1).
Proof.
  unfold span. replace (n - 1 - 0 + 1)%Z with n by lia.
  rewrite <- (map_id (upto n)) at 1. apply map_ext. intro k. lia.
Qed.

Section Sums.

Variable f : Z -> Z.

Lemma sum_over_empty (lo hi : Z) : (hi < lo)%Z -> Spec.sum_over lo hi f = 0%Z.
Proof. intro h. unfold Spec.sum_over. now rewrite span_empty. Qed.

Lemma sum_over_app (lo m hi : Z) :
  (lo <= m + 1)%Z -> (m <= hi)%Z ->
  Spec.sum_over lo hi f
  = (Spec.sum_over lo m f + Spec.sum_over (m + 1) hi f)%Z.
Proof.
  intros h1 h2. unfold Spec.sum_over.
  rewrite (span_app lo m hi), map_app by assumption.
  generalize (map f (span lo m)) as l. intro l.
  induction l as [|a l ih]; simpl; [reflexivity | rewrite ih; lia].
Qed.

Lemma sum_over_last (lo hi : Z) :
  (lo <= hi)%Z ->
  Spec.sum_over lo hi f = (Spec.sum_over lo (hi - 1) f + f hi)%Z.
Proof.
  intro h. rewrite (sum_over_app lo (hi - 1) hi) by lia.
  replace (hi - 1 + 1)%Z with hi by lia.
  unfold Spec.sum_over at 2. rewrite span_one. simpl. lia.
Qed.

Lemma sum_over_nonneg (lo hi : Z) :
  (forall i, 0 <= f i)%Z -> (0 <= Spec.sum_over lo hi f)%Z.
Proof.
  intro h. unfold Spec.sum_over. induction (span lo hi) as [|a l ih]; simpl;
    [lia | specialize (h a); lia].
Qed.

End Sums.

Lemma sum_over_ext (f g : Z -> Z) (lo hi : Z) :
  (forall i, (lo <= i <= hi)%Z -> f i = g i) ->
  Spec.sum_over lo hi f = Spec.sum_over lo hi g.
Proof.
  intro h. unfold Spec.sum_over. f_equal. apply map_ext_in.
  intros i hi'. apply h. now apply span_In.
Qed.

Lemma sum_over_add (f g : Z -> Z) (lo hi : Z) :
  Spec.sum_over lo hi (fun i => f i + g i)%Z
  = (Spec.sum_over lo hi f + Spec.sum_over lo hi g)%Z.
Proof.
  unfold Spec.sum_over. induction (span lo hi) as [|a l ih]; simpl;
    [reflexivity | rewrite ih; lia].
Qed.

Lemma sum_over_zero (lo hi : Z) : Spec.sum_over lo hi (fun _ => 0%Z) = 0%Z.
Proof.
  unfold Spec.sum_over. induction (span lo hi) as [|a l ih]; simpl; lia.
Qed.

Lemma sum_over_indicator (k lo hi : Z) :
  (lo <= k <= hi)%Z ->
  Spec.sum_over lo hi (fun i => if Z.eq_dec k i then 1 else 0)%Z = 1%Z.
Proof.
  intro h. rewrite (sum_over_app _ lo (k - 1) hi) by lia.
  replace (k - 1 + 1)%Z with k by lia.
  unfold Spec.sum_over at 2. rewrite (span_cons k hi) by lia. simpl.
  destruct (Z.eq_dec k k) as [_|n]; [|contradiction].
  assert (z : forall a b, (b < k \/ k < a)%Z ->
              Spec.sum_over a b (fun i => if Z.eq_dec k i then 1 else 0)%Z
              = 0%Z).
  { intros a b hab. rewrite (sum_over_ext _ (fun _ => 0%Z)).
    - apply sum_over_zero.
    - intros i hi'. destruct (Z.eq_dec k i); lia. }
  fold (Spec.sum_over (k + 1) hi (fun i => if Z.eq_dec k i then 1 else 0)%Z).
  rewrite !z by lia. reflexivity.
Qed.

Lemma alter_nth_length {A} (f : A -> A) (n : nat) (a : list A) :
  length (alter_nth f n a) = length a.
Proof.
  revert n. induction a as [|x a ih]; intros [|n]; simpl; auto.
Qed.

Lemma alter_at_length {A} (f : A -> A) (i : Z) (a : list A) :
  length (alter_at f i a) = length a.
Proof.
  unfold alter_at. destruct (i <? 0)%Z; [reflexivity|apply alter_nth_length].
Qed.

Lemma alter_nth_nth {A} (f : A -> A) (n k : nat) (a : list A) (d : A) :
  (k < length a)%nat ->
  nth k (alter_nth f n a) d = if Nat.eq_dec n k then f (nth k a d)
                              else nth k a d.
Proof.
  revert n k. induction a as [|x a ih]; intros [|n] [|k] h; simpl in *;
    try lia; try reflexivity.
  rewrite ih by lia. destruct (Nat.eq_dec n k), (Nat.eq_dec (S n) (S k));
    try reflexivity; lia.
Qed.

Lemma bump_get (k i : Z) (hist : list Z) :
  (0 <= i < Z.of_nat (length hist))%Z ->
  get 0%Z (alter_at Z.succ k hist) i
  = (get 0%Z hist i + if Z.eq_dec k i then 1 else 0)%Z.
Proof.
  intro h. unfold get, alter_at.
  replace (i <? 0)%Z with false by (symmetry; apply Z.ltb_ge; lia).
  destruct (k <? 0)%Z eqn:ek.
  - apply Z.ltb_lt in ek. destruct (Z.eq_dec k i); lia.
  - apply Z.ltb_ge in ek. rewrite alter_nth_nth by lia.
    destruct (Nat.eq_dec (Z.to_nat k) (Z.to_nat i)), (Z.eq_dec k i); lia.
Qed.

(** The array that the first loop of [otsuThreshold] fills holds in its
    bin [i] the number of luminances that round to [i]. *)
Lemma histogram_bins (gray : list Q) (i : Z) :
  (0 <= i < 256)%Z ->
  get 0%Z (Otsu.histogram gray) i = Spec.histogram gray i.
Proof.
  intro h. unfold Otsu.histogram.
  assert (gen : forall hist,
             length hist = 256%nat ->
             get 0%Z (fold_left
                        (fun hist v => alter_at Z.succ (Num.round v) hist)
                        gray hist) i
             = (get 0%Z hist i + Spec.histogram gray i)%Z).
  { induction gray as [|v gray ih]; intros hist hl.
    - simpl. unfold Spec.histogram. simpl. lia.
    - cbn [fold_left]. rewrite ih by now rewrite alter_at_length.
      rewrite bump_get by lia. unfold Spec.histogram. cbn [map count_occ].
      destruct (Z.eq_dec (Num.round v) i); lia. }
  rewrite gen by reflexivity.
  assert (e : get 0%Z (repeat 0%Z 256) i = 0%Z).
  { unfold get. destruct (i <? 0)%Z; [reflexivity|].
    apply nth_repeat. }
  rewrite e. lia.
Qed.

Lemma histogram_nonneg (gray : list Q) (i : Z) :
  (0 <= Spec.histogram gray i)%Z.
Proof. unfold Spec.histogram. lia. Qed.

Lemma round_range (L : Q) :
  0 <= L <= 255 -> (0 <= Num.round L <= 255)%Z.
Proof.
  intros [lo hi]. unfold Num.round. split.
  - change 0%Z with (Qfloor 0). apply Qfloor_resp_le. lra.
  - destruct (floor_bounds (L + (1 # 2))) as [fl _].
    assert (c : inject_Z (Qfloor (L + (1 # 2))) < inject_Z 256)
      by (change (inject_Z 256) with 256; lra).
    rewrite <- Zlt_Qlt in c. lia.
Qed.

(** Every cell of a field with luminances in [0, 255] is in one of the
    256 bins. *)
Lemma histogram_total (gray : list Q) :
  Forall (fun L => 0 <= L <= 255) gray ->
  Spec.sum_over 0 255 (Spec.histogram gray) = Z.of_nat (length gray).
Proof.
  induction 1 as [|v gray hv _ ih].
  - rewrite (sum_over_ext _ (fun _ => 0%Z)) by reflexivity.
    now rewrite sum_over_zero.
  - rewrite (sum_over_ext _ (fun i => (if Z.eq_dec (Num.round v) i
                                       then 1 else 0)
                                      + Spec.histogram gray i)%Z).
    + rewrite sum_over_add, ih, sum_over_indicator
        by (apply round_range; exact hv).
      cbn [length]. lia.
    + intros i _. unfold Spec.histogram. cbn [map count_occ].
      destruct (Z.eq_dec (Num.round v) i); lia.
Qed.

Lemma weighted_sum_spec (hist : list Z) :
  Otsu.weighted_sum hist
  = Spec.sum_over 0 255 (fun i => i * get 0%Z hist i)%Z.
Proof.
  unfold Otsu.weighted_sum, for_upto, Spec.sum_over.
  rewrite (upto_span 256). change (256 - 1)%Z with 255%Z.
  generalize (span 0 255) as l. intro l.
  assert (gen : forall a,
             fold_left (fun s i => (s + i * get 0 hist i)%Z) l a
             = (a + fold_right Z.add 0
                      (map (fun i => i * get 0 hist i) l))%Z).
  { induction l as [|i l ih]; intro a; simpl; [lia | rewrite ih; lia]. }
  rewrite gen. lia.
Qed.

Section OtsuScan.

Variables (h : Z -> Z) (hist : list Z) (total sum : Z).

Hypothesis h_nonneg : forall i, (0 <= h i)%Z.
Hypothesis hist_h : forall i, (0 <= i < 256)%Z -> get 0%Z hist i = h i.
Hypothesis total_h : total = Spec.sum_over 0 255 h.
Hypothesis sum_h : sum = Spec.sum_over 0 255 (fun i => i * h i)%Z.

Let WB (u : Z) : Z := Spec.sum_over 0 u h.
Let SB (u : Z) : Z := Spec.sum_over 0 u (fun i => i * h i)%Z.
Let V (u : Z) : Q := Spec.variance_of h u.

Lemma foreground_weight (u : Z) :
  (0 <= u <= 255)%Z -> Spec.sum_over (u + 1) 255 h = (total - WB u)%Z.
Proof.
  intro hu. unfold WB. rewrite total_h, (sum_over_app h 0 u 255) by lia. lia.
Qed.

Lemma foreground_sum (u : Z) :
  (0 <= u <= 255)%Z ->
  Spec.sum_over (u + 1) 255 (fun i => i * h i)%Z = (sum - SB u)%Z.
Proof.
  intro hu. unfold SB.
  rewrite sum_h, (sum_over_app _ 0 u 255) by lia. lia.
Qed.

Lemma WB_nonneg (u : Z) : (0 <= WB u)%Z.
Proof. apply sum_over_nonneg, h_nonneg. Qed.

Lemma WB_step (i : Z) : (0 <= i)%Z -> WB i = (WB (i - 1) + h i)%Z.
Proof. intro hi. unfold WB. now rewrite (sum_over_last h 0 i). Qed.

Lemma SB_step (i : Z) : (0 <= i)%Z -> SB i = (SB (i - 1) + i * h i)%Z.
Proof. intro hi. unfold SB. now rewrite (sum_over_last _ 0 i). Qed.

Lemma WB_mono (i u : Z) : (0 <= i <= u)%Z -> (WB i <= WB u)%Z.
Proof.
  intro hu. unfold WB. rewrite (sum_over_app h 0 i u) by lia.
  pose proof (sum_over_nonneg h (i + 1) u h_nonneg). lia.
Qed.

Lemma inject_nonneg (z : Z) : (0 <= z)%Z -> 0 <= inject_Z z.
Proof. intro hz. change 0 with (inject_Z 0). now rewrite <- Zle_Qle. Qed.

Lemma V_nonneg (u : Z) : 0 <= V u.
Proof.
  unfold V, Spec.variance_of. cbv zeta.
  set (d := _ - _).
  assert (hd : 0 <= d ^ 2) by (simpl; nra).
  pose proof (inject_nonneg _ (sum_over_nonneg h 0 u h_nonneg)) as a.
  pose proof (inject_nonneg _ (sum_over_nonneg h (u + 1) 255 h_nonneg)) as b.
  apply Qmult_le_0_compat; [apply Qmult_le_0_compat|]; assumption.
Qed.

Lemma V_no_background (u : Z) : WB u = 0%Z -> V u == 0.
Proof.
  intro e. unfold V, Spec.variance_of. cbv zeta. fold (WB u). rewrite e.
  set (d := (_ - _) ^ 2). change (inject_Z 0) with 0. ring.
Qed.

Lemma V_no_foreground (u : Z) :
  (0 <= u <= 255)%Z -> (total - WB u = 0)%Z -> V u == 0.
Proof.
  intros hu e. unfold V, Spec.variance_of. cbv zeta.
  rewrite foreground_weight, e by assumption.
  set (d := (_ - _) ^ 2). change (inject_Z 0) with 0. ring.
Qed.

Lemma between_V (i : Z) :
  (0 <= i <= 255)%Z ->
  Otsu.between sum (SB i) (WB i) (total - WB i) == V i.
Proof.
  intro hi. unfold Otsu.between, V, Spec.variance_of. cbv zeta.
  rewrite foreground_weight, foreground_sum by assumption.
  fold (WB i) (SB i). simpl Qpower. ring.
Qed.

(** What the scan has established when it is about to visit bin [i]. *)
Let Inv (i : Z) (m : Q) (th : Z) : Prop :=
  0 <= m /\ (0 <= th)%Z /\ ((th < i)%Z \/ (th = 0%Z /\ m == 0))
  /\ ((th < i)%Z -> V th == m)
  /\ (forall u, (0 <= u < i)%Z -> V u <= m)
  /\ (forall u, (0 <= u < th)%Z -> V u < m).

(** What the result of the scan satisfies. *)
Let Final (r : Z) : Prop :=
  (0 <= r <= 255)%Z
  /\ (forall u, (0 <= u <= 255)%Z -> V u <= V r)
  /\ (forall u, (0 <= u < r)%Z -> V u < V r).

Lemma Inv_final (i : Z) (m : Q) (th : Z) :
  (0 <= i <= 256)%Z -> Inv i m th ->
  (forall u, (i <= u <= 255)%Z -> V u == 0) ->
  ((i <= th)%Z -> V th == 0) ->
  Final th.
Proof.
  intros hi (hm & hth & hd & hv & hle & hlt) hz hz'.
  assert (e : V th == m).
  { destruct (Z_lt_le_dec th i) as [l|l]; [now apply hv|].
    destruct hd as [hd|[_ hd]]; [lia|]. rewrite hd. now apply hz'. }
  split; [destruct hd as [hd|[hd _]]; lia|]. split.
  - intros u hu. rewrite e. destruct (Z_lt_le_dec u i) as [l|l].
    + apply hle. lia.
    + rewrite hz by lia. exact hm.
  - intros u hu. rewrite e. now apply hlt.
Qed.

Lemma scan_from_final (n : nat) :
  forall (i : Z) (s : Otsu.scan),
    Z.of_nat n = (256 - i)%Z -> (0 <= i)%Z ->
    Otsu.wB s = WB (i - 1) -> Otsu.sumB s = SB (i - 1) ->
    Inv i (Otsu.max s) (Otsu.thresh s) ->
    Final (Otsu.scan_from hist total sum (span i 255) s).
Proof.
  induction n as [|n ih]; intros i [sB wB m th] hn hi ewB esB inv;
    cbn [Otsu.wB Otsu.sumB Otsu.max Otsu.thresh] in *.
  - rewrite span_empty by lia. cbn [Otsu.scan_from Otsu.thresh].
    apply (Inv_final i m th); [lia | exact inv | intros; lia |].
    destruct inv as (_ & _ & [hd|[hd _]] & _); lia.
  - rewrite span_cons by lia.
    cbn [Otsu.scan_from Otsu.wB Otsu.sumB Otsu.max Otsu.thresh].
    rewrite hist_h by lia. rewrite ewB, esB, <- WB_step by lia.
    pose proof (WB_nonneg (i - 1)) as hprev.
    pose proof (WB_step i hi) as hstep.
    pose proof (h_nonneg i) as hhi.
    destruct inv as (hm & hth & hd & hv & hle & hlt).
    destruct (Z.eqb_spec (WB i) 0) as [e0|n0].
    + (* continue *)
      assert (v0 : V i == 0) by now apply V_no_background.
      apply (ih (i + 1)%Z); cbn [Otsu.wB Otsu.sumB Otsu.max Otsu.thresh];
        try lia.
      * now replace (i + 1 - 1)%Z with i by lia.
      * replace (i + 1 - 1)%Z with i by lia. rewrite (SB_step i) by lia.
        replace (h i) with 0%Z by lia. lia.
      * repeat split; try assumption.
        -- destruct hd as [hd|hd]; [left; lia | now right].
        -- intros l. destruct (Z_lt_le_dec th i) as [l'|l'];
             [now apply hv|].
           destruct hd as [hd|[hd hd']]; [lia|].
           replace th with i by lia. now rewrite v0, hd'.
        -- intros u hu. destruct (Z.eq_dec u i) as [->|ne];
             [rewrite v0; exact hm | apply hle; lia].
    + destruct (Z.eqb_spec (total - WB i) 0) as [f0|nf].
      * (* break *)
        apply (Inv_final i m th); [lia | repeat split; assumption | |].
        -- intros u hu. apply V_no_foreground; [lia|].
           pose proof (WB_mono i u ltac:(lia)).
           pose proof (foreground_weight u ltac:(lia)) as fw.
           pose proof (sum_over_nonneg h (u + 1) 255 h_nonneg). lia.
        -- intros l. destruct hd as [hd|[hd _]]; [lia|].
           replace th with i by lia. apply V_no_foreground; lia.
      * rewrite <- SB_step by lia.
        pose proof (between_V i ltac:(lia)) as eb.
        set (b := Otsu.between sum (SB i) (WB i) (total - WB i)) in *.
        pose proof (V_nonneg i) as vi.
        destruct (m <? b) eqn:cmp; [apply ltb_lt in cmp|apply ltb_ge in cmp].
        -- apply (ih (i + 1)%Z);
             cbn [Otsu.wB Otsu.sumB Otsu.max Otsu.thresh]; try lia.
           ++ now replace (i + 1 - 1)%Z with i by lia.
           ++ now replace (i + 1 - 1)%Z with i by lia.
           ++ repeat split; try lia.
              ** lra.
              ** intros _. exact (Qeq_sym _ _ eb).
              ** intros u hu. destruct (Z.eq_dec u i) as [->|ne];
                   [lra | specialize (hle u ltac:(lia)); lra].
              ** intros u hu. specialize (hle u ltac:(lia)). lra.
        -- apply (ih (i + 1)%Z);
             cbn [Otsu.wB Otsu.sumB Otsu.max Otsu.thresh]; try lia.
           ++ now replace (i + 1 - 1)%Z with i by lia.
           ++ now replace (i + 1 - 1)%Z with i by lia.
           ++ repeat split; try assumption.
              ** destruct hd as [hd|hd]; [left; lia | now right].
              ** intros l. destruct (Z_lt_le_dec th i) as [l'|l'];
                   [now apply hv|].
                 destruct hd as [hd|[hd hd']]; [lia|].
                 replace th with i by lia. lra.
              ** intros u hu. destruct (Z.eq_dec u i) as [->|ne];
                   [lra | apply hle; lia].
Qed.

End OtsuScan.

Lemma otsuThreshold_argmax (gray : list Q) :
  Forall (fun L => 0 <= L <= 255) gray ->
  let t := Otsu.otsuThreshold gray in
  (0 <= t <= 255)%Z
  /\ (forall u, (0 <= u <= 255)%Z ->
                Spec.variance gray u <= Spec.variance gray t)
  /\ (forall u, (0 <= u < t)%Z ->
                Spec.variance gray u < Spec.variance gray t).
Proof.
  intro hg. cbv zeta. unfold Otsu.otsuThreshold, Spec.variance.
  rewrite (upto_span 256). change (256 - 1)%Z with 255%Z.
  apply (scan_from_final (Spec.histogram gray) (Otsu.histogram gray)
           (Z.of_nat (length gray)) (Otsu.weighted_sum (Otsu.histogram gray))
           (histogram_nonneg gray)
           (histogram_bins gray)) with (n := 256%nat).
  - symmetry. now apply histogram_total.
  - rewrite weighted_sum_spec. apply sum_over_ext. intros i hi.
    now rewrite histogram_bins by lia.
  - reflexivity.
  - lia.
  - reflexivity.
  - reflexivity.
  - cbn [Otsu.max Otsu.thresh]. repeat split; try lia; try lra.
    right. split; reflexivity.
Qed.



(* ------------------------------------------------------------------ *)
(** ** The luminance field of the pipeline *)

Lemma getGrayscale_range (r g b : Z) :
  (0 <= r <= 255)%Z -> (0 <= g <= 255)%Z -> (0 <= b <= 255)%Z ->
  0 <= Tone.getGrayscale r g b <= 255.
Proof.
  intros hr hg hb. unfold Tone.getGrayscale.
  assert (q : forall v, (0 <= v <= 255)%Z -> 0 <= inject_Z v <= 255).
  { intros v hv.
    split; [change 0 with (inject_Z 0) | change 255 with (inject_Z 255)];
      rewrite <- Zle_Qle; lia. }
  pose proof (q r hr). pose proof (q g hg). pose proof (q b hb). lra.
Qed.

(** Whatever bytes the canvas returns, the luminances that
    [generatePattern] hands to the algorithms are in [0, 255]. *)
Lemma pipeline_luminance_range (contrast brightness : Q) (data : list Z) :
  Forall (fun L => 0 <= L <= 255)
         (Tone.grayOf (Tone.applyContrastBrightness contrast brightness data)).
Proof.
  assert (gen : forall n data, (length data <= n)%nat ->
                Forall (fun L => 0 <= L <= 255)
                       (Tone.grayOf (Tone.applyContrastBrightness
                                       contrast brightness data))).
  { clear data. induction n as [|n ih]; intros data hl.
    - destruct data; [constructor | simpl in hl; lia].
    - destruct data as [|r [|g [|b [|a rest]]]]; try constructor.
      + apply getGrayscale_range;
          apply (channel_nearest contrast brightness).
      + apply ih. simpl in hl. lia. }
  apply (gen (length data)). lia.
Qed.

(* ================================================================== *)
(** * Further properties of the code *)

(* ------------------------------------------------------------------ *)
(** ** The cells, the shape and the inversion of a pattern *)

Lemma dark_binary (g t : Q) : binary (dark g t).
Proof. unfold dark, binary. destruct (g <? t); auto. Qed.

Lemma black_binary (v : Q) : binary (black v).
Proof. unfold black, binary. destruct (Qeq_bool v 0); auto. Qed.

Lemma Forall_firstn {A} (P : A -> Prop) (n : nat) (l : list A) :
  Forall P l -> Forall P (firstn n l).
Proof.
  intro h. revert n. induction h as [|a l ha _ ih]; intros [|n]; simpl;
    constructor; auto.
Qed.

Lemma Forall_skipn {A} (P : A -> Prop) (n : nat) (l : list A) :
  Forall P l -> Forall P (skipn n l).
Proof.
  intro h. revert n. induction h as [|a l ha hl ih]; intros [|n]; simpl;
    auto.
Qed.

Lemma assemble_Forall (P : Z -> Prop) (W H : Z) (result : list Z) :
  Forall P result -> Forall (Forall P) (assemble W H result).
Proof.
  intro h. rewrite assemble_rows. apply Forall_forall. intros row hin.
  apply in_map_iff in hin. destruct hin as (y & <- & _). unfold slice.
  now apply Forall_firstn, Forall_skipn.
Qed.

Section ScanAll.

Context {E : Type}.
Variable step : E * list Z -> Z * Z -> E * list Z.
Variable out : E -> Z * Z -> Z.
Variable P : Z -> Prop.
Hypothesis step_push :
  forall st c, snd (step st c) = snd st ++ [out (fst st) c].
Hypothesis out_P : forall e c, P (out e c).

Lemma scan_Forall (l : list (Z * Z)) (st : E * list Z) :
  Forall P (snd st) -> Forall P (snd (fold_left step l st)).
Proof.
  revert st. induction l as [|c l ih]; intros st h; simpl; [exact h|].
  apply ih. rewrite step_push. apply Forall_app. split; [exact h|].
  constructor; [apply out_P | constructor].
Qed.

End ScanAll.

Lemma fs_cell_snd (W H : Z) (t s : Q) (y x : Z) (st : dither) :
  snd (fs_cell W H t s y x st)
  = snd st ++ [black (quantize (get 0 (fst st) (y * W + x)) t)].
Proof.
  destruct st as [err result]. unfold fs_cell. cbn [fst snd].
  now destruct (y + 1 <? H)%Z.
Qed.

Lemma atk_cell_snd (W H : Z) (t s : Q) (y x : Z) (st : dither) :
  snd (atk_cell W H t s y x st)
  = snd st ++ [black (quantize (get 0 (fst st) (y * W + x)) t)].
Proof. destruct st as [err result]. reflexivity. Qed.

Lemma mapi_from_Forall {A} (P : Z -> Prop) (f : A -> Z -> Z) (i : Z)
  (a : list A) :
  (forall v k, P (f v k)) -> Forall P (mapi_from f i a).
Proof.
  intro h. revert i. induction a as [|v a ih]; intro i; simpl; constructor;
    auto.
Qed.

Lemma mapi_from_length {A B} (f : A -> Z -> B) (i : Z) (a : list A) :
  length (mapi_from f i a) = length a.
Proof. revert i. induction a as [|v a ih]; intro i; simpl; auto. Qed.

(** The values that the loops of [case 'sobel'] and [case 'adaptive']
    push. *)
Lemma sobel_map (W H : Z) (es : Q) (gray : list Q) :
  sobel W H es gray
  = map (fun c => nth 0 (sobel_cell W H (es * 2) gray (fst c) (snd c) []) 0%Z)
        (cells W H).
Proof.
  unfold sobel.
  rewrite (for_cells_ext W H _
             (fun y x acc =>
                acc ++ [nth 0 (sobel_cell W H (es * 2) gray y x []) 0%Z]))
    by (intros; apply sobel_cell_push).
  apply for_cells_push.
Qed.

Lemma adaptive_map (W H : Z) (t : Q) (bs : Z) (gray : list Q) :
  adaptive W H t bs gray
  = map (fun c =>
           dark (get 0 gray (fst c * W + snd c))
                (fst (window_sum W H (blockSize bs / 2) gray (fst c) (snd c))
                 / inject_Z (snd (window_sum W H (blockSize bs / 2) gray
                                             (fst c) (snd c)))
                 - (t - 128) / 4))
        (cells W H).
Proof.
  unfold adaptive.
  rewrite (for_cells_ext W H _ _ _ (adaptive_cell_push W H t _ gray)).
  apply (for_cells_push
           (fun y x =>
              dark (get 0 gray (y * W + x))
                   (fst (window_sum W H (blockSize bs / 2) gray y x)
                    / inject_Z (snd (window_sum W H (blockSize bs / 2) gray
                                                y x))
                    - (t - 128) / 4))).
Qed.

Lemma run_binary (st : settings) (gray : list Q) :
  Forall binary (run st gray).
Proof.
  unfold run.
  destruct (algorithm st =? "otsu")%string.
  { unfold otsu. apply Forall_forall. intros c hc. apply in_map_iff in hc.
    destruct hc as (g & <- & _). apply dark_binary. }
  destruct (algorithm st =? "floydSteinberg")%string.
  { unfold floydSteinberg. rewrite for_cells_fold.
    apply (scan_Forall _
             (fun e c => black (quantize (get 0 e (fst c * gridWidth st
                                                   + snd c))
                                         (threshold st)))).
    - intros s c. apply fs_cell_snd.
    - intros. apply black_binary.
    - constructor. }
  destruct (algorithm st =? "atkinson")%string.
  { unfold atkinson. rewrite for_cells_fold.
    apply (scan_Forall _
             (fun e c => black (quantize (get 0 e (fst c * gridWidth st
                                                   + snd c))
                                         (threshold st)))).
    - intros s c. apply atk_cell_snd.
    - intros. apply black_binary.
    - constructor. }
  destruct (algorithm st =? "ordered")%string.
  { unfold ordered, mapi. apply mapi_from_Forall. intros. apply dark_binary. }
  destruct (algorithm st =? "sobel")%string.
  { rewrite sobel_map. apply Forall_forall. intros c hc.
    apply in_map_iff in hc. destruct hc as ([y x] & <- & _).
    unfold sobel_cell. cbn [fst snd].
    destruct ((x =? 0)%Z || (x =? gridWidth st - 1)%Z || (y =? 0)%Z
              || (y =? gridHeight st - 1)%Z); cbn [app nth];
      [now left|].
    destruct (Num.sqrt_gtb _ _); [now right | now left]. }
  destruct (algorithm st =? "adaptive")%string.
  { rewrite adaptive_map. apply Forall_forall. intros c hc.
    apply in_map_iff in hc. destruct hc as (c' & <- & _). apply dark_binary. }
  unfold simple. apply Forall_forall. intros c hc. apply in_map_iff in hc.
  destruct hc as (g & <- & _). apply dark_binary.
Qed.

Lemma invert_binary (inv : bool) (result : list Z) :
  Forall binary result -> Forall binary (invert inv result).
Proof.
  intro h. destruct inv; simpl; [|exact h].
  apply Forall_forall. intros c hc. apply in_map_iff in hc.
  destruct hc as (v & <- & hv). rewrite Forall_forall in h.
  destruct (h v hv) as [-> | ->]; [now right | now left].
Qed.

(** Whatever the algorithm, the settings and the luminance field, every
    cell of the pattern that [generatePattern] builds is 0 or 1, with
    the inversion as without. *)
Theorem pattern_cells_binary :
  forall (st : settings) (gray : list Q),
    Forall (Forall binary) (patternOf st gray).
Proof.
  intros st gray. unfold patternOf.
  apply assemble_Forall, invert_binary, run_binary.
Qed.

Lemma run_length (st : settings) (gray : list Q) :
  Z.of_nat (length gray) = (gridWidth st * gridHeight st)%Z ->
  (0 <= gridWidth st)%Z -> (0 <= gridHeight st)%Z ->
  length (run st gray)
  = (Z.to_nat (gridHeight st) * Z.to_nat (gridWidth st))%nat.
Proof.
  intros hl hw hh.
  assert (lg : length gray
               = (Z.to_nat (gridHeight st) * Z.to_nat (gridWidth st))%nat)
    by nia.
  unfold run.
  destruct (algorithm st =? "otsu")%string;
    [unfold otsu; now rewrite length_map|].
  destruct (algorithm st =? "floydSteinberg")%string.
  { unfold floydSteinberg. rewrite for_cells_fold.
    rewrite (scan_length
               (fun s c => fs_cell (gridWidth st) (gridHeight st)
                             (threshold st) (ditherStrength st / 100)
                             (fst c) (snd c) s)
               (fun e c => black (quantize (get 0 e (fst c * gridWidth st
                                                     + snd c))
                                           (threshold st)))
               (fun s c => fs_cell_snd _ _ _ _ _ _ s)).
    now rewrite cells_length. }
  destruct (algorithm st =? "atkinson")%string.
  { unfold atkinson. rewrite for_cells_fold.
    rewrite (scan_length
               (fun s c => atk_cell (gridWidth st) (gridHeight st)
                             (threshold st) (ditherStrength st / 100)
                             (fst c) (snd c) s)
               (fun e c => black (quantize (get 0 e (fst c * gridWidth st
                                                     + snd c))
                                           (threshold st)))
               (fun s c => atk_cell_snd _ _ _ _ _ _ s)).
    now rewrite cells_length. }
  destruct (algorithm st =? "ordered")%string;
    [unfold ordered, mapi; now rewrite mapi_from_length|].
  destruct (algorithm st =? "sobel")%string;
    [now rewrite sobel_map, length_map, cells_length|].
  destruct (algorithm st =? "adaptive")%string;
    [now rewrite adaptive_map, length_map, cells_length|].
  unfold simple. now rewrite length_map.
Qed.

Lemma invert_length (inv : bool) (result : list Z) :
  length (invert inv result) = length result.
Proof. destruct inv; simpl; [apply length_map | reflexivity]. Qed.

Lemma slice_row {A} (W H y : Z) (result : list A) :
  length result = (Z.to_nat H * Z.to_nat W)%nat ->
  (0 <= W)%Z -> (0 <= y < H)%Z ->
  length (slice result (y * W) ((y + 1) * W)) = Z.to_nat W
  /\ forall (x : Z) (d : A),
      (0 <= x < W)%Z ->
      get d (slice result (y * W) ((y + 1) * W)) x
      = get d result (y * W + x).
Proof.
  intros hl hw hy. unfold slice.
  assert (e : (Z.to_nat ((y + 1) * W) - Z.to_nat (y * W))%nat = Z.to_nat W)
    by nia.
  rewrite e. split.
  - rewrite length_firstn, length_skipn. nia.
  - intros x d hx. unfold get.
    replace (x <? 0)%Z with false by (symmetry; apply Z.ltb_ge; lia).
    replace (y * W + x <? 0)%Z with false
      by (symmetry; apply Z.ltb_ge; nia).
    rewrite nth_firstn, nth_skipn.
    replace (Z.to_nat x <? Z.to_nat W)%nat with true
      by (symmetry; apply Nat.ltb_lt; lia).
    f_equal. nia.
Qed.

Lemma assemble_get (W H y : Z) (result : list Z) :
  (0 <= y < H)%Z ->
  get [] (assemble W H result) y = slice result (y * W) ((y + 1) * W).
Proof.
  intro hy. rewrite assemble_rows. unfold get.
  replace (y <? 0)%Z with false by (symmetry; apply Z.ltb_ge; lia).
  rewrite (nth_map_in _ _ _ 0%Z) by (rewrite upto_length; lia).
  rewrite upto_nth by lia. now rewrite Z2Nat.id by lia.
Qed.

(** For a field of [gridWidth * gridHeight] luminances the pattern has
    [gridHeight] rows of [gridWidth] cells each, whatever the
    algorithm, and its cell [pattern[y][x]] is the value that the
    algorithm (and the inversion) computed at index
    [y * gridWidth + x]. *)
Theorem pattern_shape :
  forall (st : settings) (gray : list Q),
    Z.of_nat (length gray) = (gridWidth st * gridHeight st)%Z ->
    (0 <= gridWidth st)%Z -> (0 <= gridHeight st)%Z ->
    let pattern := patternOf st gray in
    Z.of_nat (length pattern) = gridHeight st
    /\ Forall (fun row => Z.of_nat (length row) = gridWidth st) pattern
    /\ forall y x : Z,
        (0 <= y < gridHeight st)%Z -> (0 <= x < gridWidth st)%Z ->
        get 0%Z (get [] pattern y) x
        = get 0%Z (invert (invertColors st) (run st gray))
              (y * gridWidth st + x).
Proof.
  intros st gray hl hw hh. cbv zeta. unfold patternOf.
  set (result := invert (invertColors st) (run st gray)).
  assert (lr : length result
               = (Z.to_nat (gridHeight st) * Z.to_nat (gridWidth st))%nat).
  { unfold result. rewrite invert_length. now apply run_length. }
  split; [|split].
  - rewrite assemble_rows, length_map, upto_length. lia.
  - rewrite assemble_rows. apply Forall_forall. intros row hin.
    apply in_map_iff in hin. destruct hin as (y & <- & hy).
    apply upto_In in hy.
    destruct (slice_row _ _ y result lr hw hy) as [e _]. lia.
  - intros y x hy hx. rewrite assemble_get by assumption.
    now apply (slice_row _ _ y result lr hw hy).
Qed.

Lemma pattern_shape_witness :
  Z.of_nat (length [0; 255; 255; 0; 10; 200]) = (3 * 2)%Z
  /\ (0 <= 3)%Z /\ (0 <= 2)%Z
  /\ Z.of_nat (length (patternOf
                         (Settings 3 2 128 false "atkinson" 100 100 40 11 100)
                         [0; 255; 255; 0; 10; 200])) = 2%Z.
Proof.
  assert (h1 : Z.of_nat (length [0; 255; 255; 0; 10; 200]) = (3 * 2)%Z)
    by reflexivity.
  assert (h2 : (0 <= 3)%Z) by lia.
  assert (h3 : (0 <= 2)%Z) by lia.
  split; [exact h1|]. split; [exact h2|]. split; [exact h3|].
  exact (proj1 (pattern_shape
                  (Settings 3 2 128 false "atkinson" 100 100 40 11 100)
                  [0; 255; 255; 0; 10; 200] h1 h2 h3)).
Defined.

Lemma patternOf_binary (st : settings) (gray : list Q) :
  Forall (Forall binary) (patternOf st gray).
Proof.
  unfold patternOf. apply assemble_Forall, invert_binary, run_binary.
Qed.

Lemma firstn_plus {A} (a b : nat) (l : list A) :
  firstn (a + b) l = firstn a l ++ firstn b (skipn a l).
Proof.
  revert l. induction a as [|a ih]; intros [|x l]; simpl;
    try reflexivity.
  - now destruct b.
  - now rewrite ih.
Qed.

(** [pattern.flat()] gives the algorithm's result back. *)
Lemma assemble_concat (W H : Z) (result : list Z) :
  (0 <= W)%Z -> (0 <= H)%Z ->
  length result = (Z.to_nat H * Z.to_nat W)%nat ->
  concat (assemble W H result) = result.
Proof.
  intros hw hh hl. rewrite assemble_rows.
  assert (gen : forall h : nat,
             concat (map (fun y => slice result (y * W) ((y + 1) * W))
                         (upto (Z.of_nat h)))
             = firstn (h * Z.to_nat W) result).
  { induction h as [|h ih]; [reflexivity|].
    rewrite upto_succ, map_app, concat_app, ih. cbn [map concat].
    rewrite app_nil_r. unfold slice.
    replace (Z.to_nat ((Z.of_nat h + 1) * W) - Z.to_nat (Z.of_nat h * W))%nat
      with (Z.to_nat W) by nia.
    replace (Z.to_nat (Z.of_nat h * W)) with (h * Z.to_nat W)%nat by nia.
    replace (S h * Z.to_nat W)%nat with (h * Z.to_nat W + Z.to_nat W)%nat
      by lia.
    now rewrite firstn_plus. }
  rewrite <- (Z2Nat.id H hh), gen, <- hl. apply firstn_all.
Qed.

Lemma ones_invert (l : list Z) :
  Forall binary l ->
  ones (map (fun v => (1 - v)%Z) l) = (length l - ones l)%nat.
Proof.
  unfold ones. induction 1 as [|c l hc _ ih]; [reflexivity|].
  pose proof (filter_length_le (fun x : Z => (x =? 1)%Z) l) as le.
  cbn [map filter]. destruct hc as [-> | ->].
  - change (1 - 0 =? 1)%Z with true. change (0 =? 1)%Z with false.
    cbn [length]. rewrite ih. lia.
  - change (1 - 1 =? 1)%Z with false. change (1 =? 1)%Z with true.
    cbn [length]. rewrite ih. lia.
Qed.

Lemma slice_map {A B} (f : A -> B) (l : list A) (i j : Z) :
  slice (map f l) i j = map f (slice l i j).
Proof. unfold slice. now rewrite skipn_map, firstn_map. Qed.

Lemma assemble_map (f : Z -> Z) (W H : Z) (result : list Z) :
  assemble W H (map f result) = map (map f) (assemble W H result).
Proof.
  rewrite !assemble_rows, map_map. apply map_ext. intro y. apply slice_map.
Qed.

(** The inversion switch complements the pattern cell by cell: the
    inverted pattern is the pattern with every cell [v] replaced by
    [1 - v], inverting again gives the pattern back, and the inverted
    pattern has as many cells 1 as the pattern has cells 0. *)
Theorem inversion_complements :
  forall (W H : Z) (t : Q) (alg : string) (c b e : Q) (a : Z) (d : Q)
         (gray : list Q),
    let p := patternOf (Settings W H t false alg c b e a d) gray in
    let q := patternOf (Settings W H t true alg c b e a d) gray in
    q = map (map (fun v => (1 - v)%Z)) p
    /\ map (map (fun v => (1 - v)%Z)) q = p
    /\ Stats.black q = (Z.of_nat (length (concat p)) - Stats.black p)%Z.
Proof.
  intros W H t alg c b e a d gray. cbv zeta.
  assert (eq : patternOf (Settings W H t true alg c b e a d) gray
               = map (map (fun v => (1 - v)%Z))
                     (patternOf (Settings W H t false alg c b e a d) gray)).
  { unfold patternOf. cbn [invertColors gridWidth gridHeight invert].
    rewrite <- assemble_map. reflexivity. }
  split; [exact eq|]. rewrite eq. split.
  - rewrite map_map. rewrite <- (map_id (patternOf _ gray)) at 2.
    apply map_ext. intro row. rewrite map_map.
    rewrite <- (map_id row) at 2. apply map_ext. intro v. lia.
  - unfold Stats.black. rewrite <- concat_map.
    pose proof (patternOf_binary (Settings W H t false alg c b e a d) gray)
      as hb.
    apply Forall_concat in hb.
    pose proof (ones_invert _ hb) as e1. unfold ones in e1. rewrite e1.
    pose proof (filter_length_le (fun x : Z => (x =? 1)%Z)
                  (concat (patternOf (Settings W H t false alg c b e a d)
                                     gray))) as le.
    lia.
Qed.

(* ------------------------------------------------------------------ *)
(** ** The export and the stitch counts of a pattern *)

Lemma decode_marks (pattern : list (list Z)) :
  Forall (Forall binary) pattern ->
  map (map (fun f => if (f =? "X")%string then 1%Z else 0%Z))
      (map (map Csv.mark) pattern)
  = pattern.
Proof.
  intro hb. rewrite map_map. rewrite <- (map_id pattern) at 2.
  apply map_ext_in. intros row hrow. rewrite map_map.
  rewrite <- (map_id row) at 2. apply map_ext_in. intros c hc.
  rewrite Forall_forall in hb. specialize (hb row hrow).
  rewrite Forall_forall in hb. destruct (hb c hc) as [-> | ->]; reflexivity.
Qed.

(** [downloadCSV] offers no file exactly when the pattern has no row;
    the text it offers for a pattern of cells 0 and 1 without an empty
    row reads back, ["X"] as 1 and ["O"] as 0, as the pattern itself. *)
Theorem csv_round_trip :
  forall (W H : Z) (pattern : list (list Z)),
    (Csv.downloadCSV W H pattern = None <-> pattern = [])
    /\ (Forall (fun row => row <> []) pattern ->
        Forall (Forall binary) pattern ->
        pattern <> [] ->
        exists text : string,
          Csv.downloadCSV W H pattern = Some (Csv.fileName W H, text)
          /\ Table.decode text = pattern).
Proof.
  intros W H pattern. split.
  - unfold Csv.downloadCSV.
    destruct pattern; cbn [length Nat.eqb]; split; intro h;
      try discriminate h; reflexivity.
  - intros hrows hb hne. exists (Csv.csv pattern). split.
    + unfold Csv.downloadCSV. destruct pattern; [contradiction|reflexivity].
    + unfold Table.decode. rewrite csv_fields by assumption.
      now apply decode_marks.
Qed.

Lemma csv_round_trip_witness :
  exists text : string,
    Csv.downloadCSV 2 2 [[1; 0]; [0; 1]]%Z
    = Some (Csv.fileName 2 2, text)
    /\ Table.decode text = [[1; 0]; [0; 1]]%Z.
Proof.
  refine (proj2 (csv_round_trip 2 2 [[1; 0]; [0; 1]]%Z) _ _ _).
  - apply Forall_cons; [discriminate|].
    apply Forall_cons; [discriminate | apply Forall_nil].
  - repeat (apply Forall_cons || apply Forall_nil); unfold binary; auto.
  - discriminate.
Defined.

Lemma mark_is_X (c : Z) : (Csv.mark c =? "X")%string = (c =? 1)%Z.
Proof. unfold Csv.mark. now destruct (c =? 1)%Z. Qed.

Lemma mark_is_O (c : Z) : (Csv.mark c =? "O")%string = negb (c =? 1)%Z.
Proof. unfold Csv.mark. now destruct (c =? 1)%Z. Qed.

Lemma count_X_marks (l : list Z) :
  length (filter (fun g => (g =? "X")%string) (map Csv.mark l)) = ones l.
Proof.
  unfold ones. induction l as [|c l ih]; [reflexivity|].
  cbn [map filter]. rewrite mark_is_X.
  destruct (c =? 1)%Z; cbn [length]; now rewrite ih.
Qed.

Lemma count_O_marks (l : list Z) :
  length (filter (fun g => (g =? "O")%string) (map Csv.mark l))
  = (length l - ones l)%nat.
Proof.
  unfold ones. induction l as [|c l ih]; [reflexivity|].
  pose proof (filter_length_le (fun x : Z => (x =? 1)%Z) l) as le.
  cbn [map filter]. rewrite mark_is_O.
  destruct (c =? 1)%Z; cbn [negb length]; rewrite ih; lia.
Qed.

(** For the pattern of a field of [gridWidth * gridHeight] luminances
    on a grid with at least one row and one column, the numbers shown
    beside it agree with the exported file: the file exists and reads
    back as the pattern, the dark count is the number of its ["X"]
    fields, the total is [gridWidth * gridHeight], and the light count
    (total minus dark) is the number of its ["O"] fields. *)
Theorem stitch_counts_match_export :
  forall (st : settings) (gray : list Q),
    Z.of_nat (length gray) = (gridWidth st * gridHeight st)%Z ->
    (0 < gridWidth st)%Z -> (0 < gridHeight st)%Z ->
    let pattern := patternOf st gray in
    exists text : string,
      Csv.downloadCSV (gridWidth st) (gridHeight st) pattern
      = Some (Csv.fileName (gridWidth st) (gridHeight st), text)
      /\ Table.decode text = pattern
      /\ Stats.stitches (gridWidth st) (gridHeight st) pattern
         = (Table.count "X" text, (gridWidth st * gridHeight st)%Z)
      /\ Table.count "O" text
         = (gridWidth st * gridHeight st - Table.count "X" text)%Z
      /\ (0 <= Table.count "X" text <= gridWidth st * gridHeight st)%Z.
Proof.
  intros st gray hl hw hh. cbv zeta.
  set (W := gridWidth st) in *. set (H := gridHeight st) in *.
  set (result := invert (invertColors st) (run st gray)).
  assert (lr : length result = (Z.to_nat H * Z.to_nat W)%nat).
  { unfold result. rewrite invert_length. apply run_length; fold W H; lia. }
  assert (ep : patternOf st gray = assemble W H result) by reflexivity.
  assert (flat : concat (patternOf st gray) = result).
  { rewrite ep. apply assemble_concat; lia. }
  assert (rows : Forall (fun row : list Z => row <> []) (patternOf st gray)).
  { rewrite ep, assemble_rows. apply Forall_forall. intros row hin.
    apply in_map_iff in hin. destruct hin as (y & <- & hy).
    apply upto_In in hy.
    destruct (slice_row W H y result lr ltac:(lia) hy) as [e _].
    intro e0. rewrite e0 in e. simpl in e. lia. }
  assert (ne : patternOf st gray <> []).
  { intro e0. apply (f_equal (@length _)) in e0.
    rewrite ep, assemble_rows, length_map, upto_length in e0. simpl in e0.
    lia. }
  exists (Csv.csv (patternOf st gray)).
  assert (fl : Spec.fields (Csv.csv (patternOf st gray))
               = map (map Csv.mark) (patternOf st gray))
    by now apply csv_fields.
  assert (cx : Table.count "X" (Csv.csv (patternOf st gray))
               = Z.of_nat (ones result)).
  { unfold Table.count. rewrite fl, <- concat_map, flat.
    now rewrite count_X_marks. }
  assert (co : Table.count "O" (Csv.csv (patternOf st gray))
               = Z.of_nat (length result - ones result)).
  { unfold Table.count. rewrite fl, <- concat_map, flat.
    now rewrite count_O_marks. }
  pose proof (filter_length_le (fun x : Z => (x =? 1)%Z) result) as le.
  fold (ones result) in le.
  split; [|split; [|split; [|split]]].
  - unfold Csv.downloadCSV.
    destruct (patternOf st gray); [contradiction | reflexivity].
  - unfold Table.decode. rewrite fl. apply decode_marks, patternOf_binary.
  - unfold Stats.stitches.
    replace (0 <? length (patternOf st gray))%nat with true.
    + rewrite cx. f_equal. unfold Stats.black. now rewrite flat.
    + symmetry. apply Nat.ltb_lt.
      destruct (patternOf st gray); [contradiction | simpl; lia].
  - rewrite co, cx. nia.
  - rewrite cx. nia.
Qed.

Lemma stitch_counts_match_export_witness :
  let st := Settings 3 2 128 false "ordered" 100 100 40 11 80 in
  Z.of_nat (length [0; 255; 255; 0; 10; 200]) = (3 * 2)%Z
  /\ (0 < 3)%Z /\ (0 < 2)%Z
  /\ exists text : string,
      Table.decode text = patternOf st [0; 255; 255; 0; 10; 200]
      /\ Stats.stitches 3 2 (patternOf st [0; 255; 255; 0; 10; 200])
         = (Table.count "X" text, (3 * 2)%Z).
Proof.
  cbv zeta.
  assert (h1 : Z.of_nat (length [0; 255; 255; 0; 10; 200]) = (3 * 2)%Z)
    by reflexivity.
  assert (h2 : (0 < 3)%Z) by lia.
  assert (h3 : (0 < 2)%Z) by lia.
  split; [exact h1|]. split; [exact h2|]. split; [exact h3|].
  destruct (stitch_counts_match_export
              (Settings 3 2 128 false "ordered" 100 100 40 11 80)
              [0; 255; 255; 0; 10; 200] h1 h2 h3)
    as (text & _ & e1 & e2 & _).
  exists text. split; [exact e1 | exact e2].
Defined.

(* ------------------------------------------------------------------ *)
(** ** The threshold and the sliders *)

Lemma dark_is_one (g t : Q) : (dark g t =? 1)%Z = (g <? t).
Proof. unfold dark. now destruct (g <? t). Qed.

Lemma ones_simple_mono (t t' : Q) (gray : list Q) :
  t <= t' -> (ones (simple t gray) <= ones (simple t' gray))%nat.
Proof.
  intro h. unfold ones, simple.
  induction gray as [|g gray ih]; [reflexivity|].
  cbn [map filter]. rewrite !dark_is_one.
  destruct (g <? t) eqn:e1; destruct (g <? t') eqn:e2;
    cbn [length]; try lia.
  exfalso. apply ltb_lt in e1. apply ltb_ge in e2. lra.
Qed.

(** With the simple threshold, raising the threshold never turns a cell
    from 1 to 0, so the dark count of the pattern never decreases. *)
Theorem threshold_monotone :
  forall (W H : Z) (t t' : Q) (c b e : Q) (a : Z) (d : Q) (gray : list Q),
    Z.of_nat (length gray) = (W * H)%Z -> (0 <= W)%Z -> (0 <= H)%Z ->
    t <= t' ->
    let p := patternOf (Settings W H t false "threshold" c b e a d) gray in
    let p' := patternOf (Settings W H t' false "threshold" c b e a d) gray in
    (forall y x : Z,
        (0 <= y < H)%Z -> (0 <= x < W)%Z ->
        get 0%Z (get [] p y) x = 1%Z -> get 0%Z (get [] p' y) x = 1%Z)
    /\ (Stats.black p <= Stats.black p')%Z.
Proof.
  intros W H t t' c b e a d gray hl hw hh ht. cbv zeta.
  unfold patternOf, run. cbn [algorithm gridWidth gridHeight invertColors
                                threshold String.eqb Ascii.eqb Bool.eqb
                                invert].
  assert (len : forall u, length (simple u gray)
                          = (Z.to_nat H * Z.to_nat W)%nat)
    by (intro u; unfold simple; rewrite length_map; nia).
  split.
  - intros y x hy hx. rewrite !assemble_get by assumption.
    rewrite !(proj2 (slice_row W H y _ (len _) hw hy) x 0%Z hx).
    unfold simple, get.
    replace (y * W + x <? 0)%Z with false
      by (symmetry; apply Z.ltb_ge; nia).
    rewrite !(nth_map_in _ _ _ 0) by nia.
    intro h1. apply dark_spec in h1. apply dark_spec. lra.
  - unfold Stats.black. rewrite !assemble_concat by (auto; apply len).
    pose proof (ones_simple_mono t t' gray ht) as m. unfold ones in m. lia.
Qed.

Lemma threshold_monotone_witness :
  let gray := [0; 255; 255; 0; 10; 200] in
  Z.of_nat (length gray) = (3 * 2)%Z /\ (0 <= 3)%Z /\ (0 <= 2)%Z
  /\ 100 <= 220
  /\ (Stats.black
        (patternOf (Settings 3 2 100 false "threshold" 100 100 40 11 100)
                   gray)
      <= Stats.black
           (patternOf (Settings 3 2 220 false "threshold" 100 100 40 11 100)
                      gray))%Z.
Proof.
  cbv zeta.
  assert (h1 : Z.of_nat (length [0; 255; 255; 0; 10; 200]) = (3 * 2)%Z)
    by reflexivity.
  assert (h2 : (0 <= 3)%Z) by lia.
  assert (h3 : (0 <= 2)%Z) by lia.
  assert (h4 : 100 <= 220) by (vm_compute; discriminate).
  split; [exact h1|]. split; [exact h2|]. split; [exact h3|].
  split; [exact h4|].
  exact (proj2 (threshold_monotone 3 2 100 220 100 100 40 11 100 _
                                   h1 h2 h3 h4)).
Defined.

Ltac split_algorithm alg :=
  destruct (String.eqb_spec alg "otsu") as [-> | ?];
  [| destruct (String.eqb_spec alg "floydSteinberg") as [-> | ?];
     [| destruct (String.eqb_spec alg "atkinson") as [-> | ?];
        [| destruct (String.eqb_spec alg "ordered") as [-> | ?];
           [| destruct (String.eqb_spec alg "sobel") as [-> | ?];
              [| destruct (String.eqb_spec alg "adaptive") as [-> | ?]]]]]].

(** A slider that is not shown for the chosen algorithm has no effect
    on the result: the dither strength outside the three dithering
    algorithms, the edge sensitivity outside edge detection, the block
    size outside the adaptive threshold, whatever the identifier; and
    the threshold for the algorithms of the table that hide it (the
    automatic threshold and edge detection). *)
Theorem hidden_sliders_have_no_effect :
  forall (W H : Z) (t : Q) (inv : bool) (alg : string) (c b e : Q) (a : Z)
         (d : Q) (gray : list Q),
    (App.showDither alg = false ->
     forall d' : Q,
       run (Settings W H t inv alg c b e a d) gray
       = run (Settings W H t inv alg c b e a d') gray)
    /\ (App.showEdge alg = false ->
        forall e' : Q,
          run (Settings W H t inv alg c b e a d) gray
          = run (Settings W H t inv alg c b e' a d) gray)
    /\ (App.showAdaptive alg = false ->
        forall a' : Z,
          run (Settings W H t inv alg c b e a d) gray
          = run (Settings W H t inv alg c b e a' d) gray)
    /\ (App.showThreshold alg = false ->
        In alg ["threshold"; "otsu"; "floydSteinberg"; "atkinson";
                "ordered"; "adaptive"; "sobel"]%string ->
        forall t' : Q,
          run (Settings W H t inv alg c b e a d) gray
          = run (Settings W H t' inv alg c b e a d) gray).
Proof.
  intros W H t inv alg c b e a d gray. split; [|split; [|split]].
  - intros hs d'. unfold run.
    cbn [algorithm gridWidth gridHeight threshold ditherStrength
           edgeSensitivity adaptiveBlockSize].
    split_algorithm alg; try discriminate hs; try reflexivity.
  - intros hs e'. unfold run.
    cbn [algorithm gridWidth gridHeight threshold ditherStrength
           edgeSensitivity adaptiveBlockSize].
    split_algorithm alg; try discriminate hs; try reflexivity.
  - intros hs a'. unfold run.
    cbn [algorithm gridWidth gridHeight threshold ditherStrength
           edgeSensitivity adaptiveBlockSize].
    split_algorithm alg; try discriminate hs; try reflexivity.
  - intros hs hin t'. simpl in hin.
    destruct hin as [<-|[<-|[<-|[<-|[<-|[<-|[<-|[]]]]]]]];
      try discriminate hs; reflexivity.
Qed.

Lemma hidden_sliders_have_no_effect_witness :
  run (Settings 2 1 128 false "otsu" 100 100 40 11 100) [10; 200]
  = run (Settings 2 1 3 false "otsu" 100 100 40 11 100) [10; 200].
Proof.
  refine (proj2 (proj2 (proj2
            (hidden_sliders_have_no_effect 2 1 128 false "otsu" 100 100 40
               11 100 [10; 200]))) eq_refl _ 3).
  simpl. tauto.
Defined.

(* ------------------------------------------------------------------ *)
(** ** Dithering without strength *)

Lemma add_at_zero (i : Z) (v : Q) (a : list Q) :
  v == 0 -> same (add_at i v a) a.
Proof.
  intro hv. unfold add_at, alter_at. destruct (i <? 0)%Z; [apply same_refl|].
  generalize (Z.to_nat i) as n. induction a as [|x a ih]; intros [|n]; simpl.
  - constructor.
  - constructor.
  - constructor; [rewrite hv; ring | apply same_refl].
  - constructor; [reflexivity | apply ih].
Qed.

Ltac zero_adds :=
  repeat first
    [ apply same_refl
    | eapply same_trans; [apply add_at_zero; field |] ].

Lemma fs_cell_zero (W H : Z) (t : Q) (y x : Z) (st : dither) :
  same (fst (fs_cell W H t (0 / 100) y x st)) (fst st).
Proof.
  destruct st as [err result]. unfold fs_cell. cbn [fst].
  destruct (x + 1 <? W)%Z, (y + 1 <? H)%Z, (x >? 0)%Z; zero_adds.
Qed.

Lemma atk_cell_zero (W H : Z) (t : Q) (y x : Z) (st : dither) :
  same (fst (atk_cell W H t (0 / 100) y x st)) (fst st).
Proof.
  destruct st as [err result]. unfold atk_cell. cbn [fst].
  destruct (x + 1 <? W)%Z, (x + 2 <? W)%Z, (y + 1 <? H)%Z, (x >? 0)%Z,
    (y + 2 <? H)%Z; zero_adds.
Qed.

Lemma get_same (a b : list Q) (i : Z) : same a b -> get 0 a i == get 0 b i.
Proof.
  intro h. unfold get. destruct (i <? 0)%Z; [reflexivity|].
  generalize (Z.to_nat i) as n.
  induction h as [|x y a b e _ ih]; intros [|n]; simpl;
    try reflexivity; [exact e | apply ih].
Qed.

Lemma black_quantize_dark (old t : Q) : black (quantize old t) = dark old t.
Proof. unfold black, quantize, dark. now destruct (old <? t). Qed.

Lemma dark_compat_l (g g' t : Q) : g == g' -> dark g t = dark g' t.
Proof. intro e. unfold dark. now rewrite (ltb_compat g g' t t). Qed.

Lemma cells_at (W H : Z) (k : nat) (d : Z * Z) :
  (k < length (cells W H))%nat ->
  nth k (cells W H) d = ((Z.of_nat k / W)%Z, (Z.of_nat k mod W)%Z).
Proof.
  rewrite cells_length. intro hk.
  assert (hw : (0 < W)%Z) by nia.
  pose proof (Z.div_mod (Z.of_nat k) W ltac:(lia)) as dm.
  pose proof (Z.mod_pos_bound (Z.of_nat k) W hw) as mb.
  assert (hq : (0 <= Z.of_nat k / W < H)%Z).
  { split; [apply Z.div_pos; lia|].
    apply Z.div_lt_upper_bound; [lia|]. nia. }
  rewrite <- (cells_nth W H _ _ d hq mb). f_equal. lia.
Qed.

(** A scan that quantizes the buffer and leaves its numbers as they
    are computes the simple threshold. *)
Lemma still_scan_simple (W H : Z) (body : Z -> Z -> dither -> dither)
  (t : Q) (gray : list Q) :
  (forall y x st,
      snd (body y x st)
      = snd st ++ [black (quantize (get 0 (fst st) (y * W + x)) t)]) ->
  (forall y x st, same (fst (body y x st)) (fst st)) ->
  Z.of_nat (length gray) = (W * H)%Z -> (0 <= W)%Z -> (0 <= H)%Z ->
  snd (for_cells W H body (gray, [])) = simple t gray.
Proof.
  intros push keep hl hw hh. rewrite for_cells_fold.
  set (step := fun (s : dither) (c : Z * Z) => body (fst c) (snd c) s).
  set (out := fun (e : list Q) (c : Z * Z) =>
                black (quantize (get 0 e (fst c * W + snd c)) t)).
  assert (sp : forall st c, snd (step st c) = snd st ++ [out (fst st) c])
    by (intros; apply push).
  assert (ks : forall l st, same (fst (fold_left step l st)) (fst st)).
  { induction l as [|c l ih]; intro st; simpl; [apply same_refl|].
    eapply same_trans; [apply ih | apply keep]. }
  apply (nth_ext _ _ 0%Z 0%Z).
  - rewrite (scan_length step out sp), cells_length. unfold simple.
    rewrite length_map. simpl. nia.
  - intros k hk.
    rewrite (scan_length step out sp) in hk. simpl in hk.
    etransitivity;
      [exact (scan_nth step out sp (cells W H) (gray, []) k 0%Z (0%Z, 0%Z)
                       eq_refl hk)|].
    rewrite (cells_at W H k _ hk). unfold out. cbn [fst snd].
    rewrite cells_length in hk.
    assert (hw' : (0 < W)%Z) by nia.
    replace (Z.of_nat k / W * W + Z.of_nat k mod W)%Z with (Z.of_nat k)
      by (pose proof (Z.div_mod (Z.of_nat k) W ltac:(lia)); lia).
    rewrite black_quantize_dark.
    rewrite (dark_compat_l _ _ t (get_same _ _ (Z.of_nat k) (ks _ _))).
    unfold simple. cbn [fst].
    rewrite (nth_map_in _ _ _ 0) by nia.
    unfold get. replace (Z.of_nat k <? 0)%Z with false
      by (symmetry; apply Z.ltb_ge; lia).
    now rewrite Nat2Z.id.
Qed.

(** With the dither strength at 0, Floyd-Steinberg and Atkinson
    dithering give the result of the simple threshold, cell for cell,
    on every field that covers the grid. *)
Theorem dithering_without_strength :
  forall (W H : Z) (t : Q) (inv : bool) (c b e : Q) (a : Z) (gray : list Q),
    Z.of_nat (length gray) = (W * H)%Z -> (0 <= W)%Z -> (0 <= H)%Z ->
    run (Settings W H t inv "floydSteinberg" c b e a 0) gray
    = run (Settings W H t inv "threshold" c b e a 0) gray
    /\ run (Settings W H t inv "atkinson" c b e a 0) gray
       = run (Settings W H t inv "threshold" c b e a 0) gray.
Proof.
  intros W H t inv c b e a gray hl hw hh. unfold run.
  cbn [algorithm gridWidth gridHeight threshold ditherStrength String.eqb
         Ascii.eqb Bool.eqb].
  split.
  - apply still_scan_simple; auto.
    + intros; apply fs_cell_snd.
    + intros; apply fs_cell_zero.
  - apply still_scan_simple; auto.
    + intros; apply atk_cell_snd.
    + intros; apply atk_cell_zero.
Qed.

Lemma dithering_without_strength_witness :
  let gray := [0; 255; 255; 0; 10; 200] in
  Z.of_nat (length gray) = (3 * 2)%Z /\ (0 <= 3)%Z /\ (0 <= 2)%Z
  /\ run (Settings 3 2 128 false "floydSteinberg" 100 100 40 11 0) gray
     = run (Settings 3 2 128 false "threshold" 100 100 40 11 0) gray.
Proof.
  cbv zeta.
  assert (h1 : Z.of_nat (length [0; 255; 255; 0; 10; 200]) = (3 * 2)%Z)
    by reflexivity.
  assert (h2 : (0 <= 3)%Z) by lia.
  assert (h3 : (0 <= 2)%Z) by lia.
  split; [exact h1|]. split; [exact h2|]. split; [exact h3|].
  exact (proj1 (dithering_without_strength 3 2 128 false 100 100 40 11 _
                                           h1 h2 h3)).
Defined.

(* ------------------------------------------------------------------ *)
(** ** Flat images *)

Lemma get_repeat (L : Q) (n : nat) (i : Z) :
  (0 <= i < Z.of_nat n)%Z -> get 0 (repeat L n) i = L.
Proof.
  intro h. unfold get.
  replace (i <? 0)%Z with false by (symmetry; apply Z.ltb_ge; lia).
  apply nth_repeat_lt. lia.
Qed.

Lemma map_constant {A B} (f : A -> B) (v : B) (l : list A) :
  (forall a, In a l -> f a = v) -> map f l = repeat v (length l).
Proof.
  induction l as [|a l ih]; intro h; simpl; [reflexivity|].
  rewrite h by now left. f_equal. apply ih. intros; apply h. now right.
Qed.

Lemma sqrt_gtb_zero (s t : Q) : s == 0 -> 0 <= t -> Num.sqrt_gtb s t = false.
Proof.
  intros hs ht. unfold Num.sqrt_gtb. apply orb_false_iff.
  split; apply ltb_ge; [exact ht | nra].
Qed.



Lemma total_constant {A} (f : A -> Q) (L : Q) (l : list A) :
  (forall a, In a l -> f a = L) ->
  Spec.total (map f l) == inject_Z (Z.of_nat (length l)) * L.
Proof.
  induction l as [|a l ih]; intro h.
  - simpl. ring.
  - cbn [map length]. rewrite total_cons, ih by (intros; apply h; now right).
    rewrite h by now left.
    rewrite Nat2Z.inj_succ, <- Z.add_1_r, inject_Z_plus.
    change (inject_Z 1) with 1. ring.
Qed.

Lemma half_block_positive (a : Z) : (1 <= blockSize a / 2)%Z.
Proof.
  unfold blockSize.
  pose proof (Z.le_max_l 3 (Z.lor (Num.toInt32 a) 1)) as m.
  apply Z.div_le_lower_bound; lia.
Qed.


Lemma histogram_one_bin (gray : list Q) (k i : Z) :
  Forall (fun L => Num.round L = k) gray -> i <> k ->
  Spec.histogram gray i = 0%Z.
Proof.
  intros hk hi. unfold Spec.histogram.
  induction hk as [|L gray e _ ih]; [reflexivity|].
  cbn [map count_occ]. destruct (Z.eq_dec (Num.round L) i); [lia | exact ih].
Qed.

Lemma variance_one_bin (gray : list Q) (k u : Z) :
  Forall (fun L => Num.round L = k) gray -> Spec.variance gray u == 0.
Proof.
  intro hk. unfold Spec.variance, Spec.variance_of. cbv zeta.
  destruct (Z_lt_le_dec u k) as [l | l].
  - rewrite (sum_over_ext (Spec.histogram gray) (fun _ => 0%Z) 0 u)
      by (intros i hi; apply (histogram_one_bin gray k); [assumption | lia]).
    rewrite sum_over_zero. set (dd := (_ - _) ^ 2).
    change (inject_Z 0) with 0. ring.
  - rewrite (sum_over_ext (Spec.histogram gray) (fun _ => 0%Z) (u + 1) 255)
      by (intros i hi; apply (histogram_one_bin gray k); [assumption | lia]).
    rewrite sum_over_zero. set (dd := (_ - _) ^ 2).
    change (inject_Z 0) with 0. ring.
Qed.

(** When all the luminances of the field round to the same value (a
    flat image, or an empty field), the automatic threshold is 0 and
    the pattern is all 0. *)
Theorem otsu_flat_image :
  forall (gray : list Q) (k : Z),
    Forall (fun L => 0 <= L <= 255) gray ->
    Forall (fun L => Num.round L = k) gray ->
    Otsu.otsuThreshold gray = 0%Z
    /\ forall (W H : Z) (t : Q) (inv : bool) (c b e : Q) (a : Z) (d : Q),
        run (Settings W H t inv "otsu" c b e a d) gray
        = repeat 0%Z (length gray).
Proof.
  intros gray k hr hk.
  destruct (otsuThreshold_argmax gray hr) as (rng & _ & first).
  cbv zeta in rng, first.
  assert (z : Otsu.otsuThreshold gray = 0%Z).
  { destruct (Z.eq_dec (Otsu.otsuThreshold gray) 0) as [e | n]; [exact e|].
    exfalso. specialize (first 0%Z ltac:(lia)).
    rewrite !(variance_one_bin gray k) in first by assumption. lra. }
  split; [exact z|]. intros. unfold run.
  cbn [algorithm String.eqb Ascii.eqb Bool.eqb]. unfold otsu. rewrite z.
  apply map_constant. intros L hin. rewrite Forall_forall in hr.
  destruct (hr L hin) as [lo _]. unfold dark.
  destruct (L <? inject_Z 0) eqn:c1; [|reflexivity].
  apply ltb_lt in c1. change (inject_Z 0) with 0 in c1. lra.
Qed.

Lemma otsu_flat_image_witness :
  Forall (fun L => 0 <= L <= 255) (repeat (1277 # 10) 6)
  /\ Forall (fun L => Num.round L = 128%Z) (repeat (1277 # 10) 6)
  /\ Otsu.otsuThreshold (repeat (1277 # 10) 6) = 0%Z.
Proof.
  assert (h1 : Forall (fun L => 0 <= L <= 255) (repeat (1277 # 10) 6)).
  { simpl. repeat (apply Forall_cons || apply Forall_nil);
      split; vm_compute; discriminate. }
  assert (h2 : Forall (fun L => Num.round L = 128%Z) (repeat (1277 # 10) 6)).
  { simpl. repeat (apply Forall_cons || apply Forall_nil); reflexivity. }
  split; [exact h1|]. split; [exact h2|].
  exact (proj1 (otsu_flat_image _ 128 h1 h2)).
Defined.

(* ------------------------------------------------------------------ *)
(** ** Tone and luminance *)

Lemma applyContrastBrightness_length (contrast brightness : Q)
  (data : list Z) :
  length (Tone.applyContrastBrightness contrast brightness data)
  = length data.
Proof.
  assert (gen : forall n data, (length data <= n)%nat ->
                length (Tone.applyContrastBrightness contrast brightness data)
                = length data).
  { clear data. induction n as [|n ih]; intros data hl.
    - destruct data; [reflexivity | simpl in hl; lia].
    - destruct data as [|r [|g [|b [|a rest]]]]; try reflexivity.
      cbn [Tone.applyContrastBrightness length]. rewrite ih; [reflexivity|].
      simpl in hl. lia. }
  apply (gen (length data)). lia.
Qed.

Lemma grayOf_length (data : list Z) :
  length (Tone.grayOf data) = (length data / 4)%nat.
Proof.
  assert (gen : forall n data, (length data <= n)%nat ->
                length (Tone.grayOf data) = (length data / 4)%nat).
  { clear data. induction n as [|n ih]; intros data hl.
    - destruct data; [reflexivity | simpl in hl; lia].
    - destruct data as [|r [|g [|b [|a rest]]]]; try reflexivity.
      cbn [Tone.grayOf length]. rewrite ih by (simpl in hl; lia).
      change (S (S (S (S (length rest))))) with (4 + length rest)%nat.
      replace (4 + length rest)%nat with (length rest + 1 * 4)%nat by lia.
      rewrite Nat.div_add by lia. lia. }
  apply (gen (length data)). lia.
Qed.


Lemma tone_monotone (contrast brightness a a' : Q) :
  0 <= contrast -> a <= a' ->
  Spec.tone contrast brightness a <= Spec.tone contrast brightness a'.
Proof.
  intros hc ha. unfold Spec.tone.
  assert (q : contrast / 100 == contrast * (1 # 100)) by field.
  set (k := contrast / 100) in *.
  assert (hk : 0 <= k) by (rewrite q; lra).
  assert (m : (a - 128) * k <= (a' - 128) * k)
    by (apply Qmult_le_compat_r; [lra | exact hk]).
  set (u := (a - 128) * k) in *. set (u' := (a' - 128) * k) in *.
  destruct (clamp_cases (u + 128 + (brightness - 100) * (255 # 100)))
    as [(h & ->) | [(h & ->) | (h & ->)]];
    destruct (clamp_cases (u' + 128 + (brightness - 100) * (255 # 100)))
      as [(h' & ->) | [(h' & ->) | (h' & ->)]]; lra.
Qed.

(** With a contrast that is not negative the tone adjuster keeps the
    order of the channel values: a larger byte never becomes a smaller
    one. *)
Theorem tone_keeps_order :
  forall (contrast brightness : Q) (v v' : Z),
    0 <= contrast -> (v <= v')%Z ->
    (Tone.channel contrast brightness v
     <= Tone.channel contrast brightness v')%Z.
Proof.
  intros contrast brightness v v' hc hv.
  destruct (channel_nearest contrast brightness v) as (_ & n1 & t1).
  destruct (channel_nearest contrast brightness v') as (_ & n2 & t2).
  assert (m : Spec.tone contrast brightness (inject_Z v)
              <= Spec.tone contrast brightness (inject_Z v'))
    by (apply tone_monotone; [exact hc | now rewrite <- Zle_Qle]).
  set (a := Spec.tone contrast brightness (inject_Z v)) in *.
  set (a' := Spec.tone contrast brightness (inject_Z v')) in *.
  set (n := Tone.channel contrast brightness v) in *.
  set (n' := Tone.channel contrast brightness v') in *.
  clearbody a a' n n'.
  destruct (Z_le_gt_dec n n') as [le | gt]; [exact le | exfalso].
  assert (g : inject_Z n' + 1 <= inject_Z n).
  { change 1 with (inject_Z 1). rewrite <- inject_Z_plus, <- Zle_Qle. lia. }
  apply Qabs_Qle_condition in n1. apply Qabs_Qle_condition in n2.
  assert (e1 : inject_Z n - a == 1 # 2) by lra.
  assert (e2 : inject_Z n' - a' == - (1 # 2)) by lra.
  assert (en : inject_Z n == inject_Z n' + 1) by lra.
  assert (ev1 : Z.even n = true).
  { apply t1. rewrite e1. reflexivity. }
  assert (ev2 : Z.even n' = true).
  { apply t2. rewrite e2. reflexivity. }
  change 1 with (inject_Z 1) in en. rewrite <- inject_Z_plus in en.
  assert (ez : n = (n' + 1)%Z) by (unfold Qeq in en; simpl in en; lia).
  rewrite ez, Z.even_add, ev2 in ev1. discriminate ev1.
Qed.

Lemma tone_keeps_order_witness :
  0 <= 150 /\ (100 <= 101)%Z
  /\ (Tone.channel 150 100 100 <= Tone.channel 150 100 101)%Z.
Proof.
  assert (h1 : 0 <= 150) by (vm_compute; discriminate).
  assert (h2 : (100 <= 101)%Z) by lia.
  split; [exact h1|]. split; [exact h2|].
  exact (tone_keeps_order 150 100 100 101 h1 h2).
Defined.

(* ------------------------------------------------------------------ *)
(** ** The crop rectangle *)

Lemma clamp_between (lo hi v : Q) :
  lo <= hi -> lo <= Num.max lo (Num.min hi v) <= hi.
Proof.
  intro h.
  destruct (min_cases hi v) as [(h1 & e1) | (h1 & e1)]; rewrite e1;
    (destruct (max_cases lo v) as [(h2 & e2) | (h2 & e2)];
     destruct (max_cases lo hi) as [(h3 & e3) | (h3 & e3)];
     rewrite ?e2, ?e3; lra).
Qed.

Lemma clamp_inside (lo hi v : Q) :
  lo <= v <= hi -> Num.max lo (Num.min hi v) == v.
Proof.
  intro h.
  destruct (min_cases hi v) as [(h1 & e1) | (h1 & e1)]; rewrite e1;
    (destruct (max_cases lo v) as [(h2 & e2) | (h2 & e2)];
     destruct (max_cases lo hi) as [(h3 & e3) | (h3 & e3)];
     rewrite ?e2, ?e3; lra).
Qed.

Lemma clamp_low (lo hi v : Q) :
  lo <= hi -> v <= lo -> Num.max lo (Num.min hi v) == lo.
Proof.
  intros h hv.
  destruct (min_cases hi v) as [(h1 & e1) | (h1 & e1)]; rewrite e1;
    (destruct (max_cases lo v) as [(h2 & e2) | (h2 & e2)];
     destruct (max_cases lo hi) as [(h3 & e3) | (h3 & e3)];
     rewrite ?e2, ?e3; lra).
Qed.

Lemma clamp_high (lo hi v : Q) :
  lo <= hi -> hi <= v -> Num.max lo (Num.min hi v) == hi.
Proof.
  intros h hv.
  destruct (min_cases hi v) as [(h1 & e1) | (h1 & e1)]; rewrite e1;
    (destruct (max_cases lo v) as [(h2 & e2) | (h2 & e2)];
     destruct (max_cases lo hi) as [(h3 & e3) | (h3 & e3)];
     rewrite ?e2, ?e3; lra).
Qed.

Lemma resize_axis (l r : bool) (a c da : Q) :
  0 <= a -> a + (5 # 100) <= c -> c <= 1 ->
  let a' := if l then Num.max 0 (Num.min (c - (5 # 100)) (a + da)) else a in
  let c' := if r then Num.max (a' + (5 # 100)) (Num.min 1 (c + da)) else c in
  0 <= a' /\ a' + (5 # 100) <= c' /\ c' <= 1.
Proof.
  intros h0 h1 h2. cbv zeta.
  set (a' := if l then _ else a).
  assert (ha : 0 <= a' <= c - (5 # 100)).
  { subst a'. destruct l; [apply clamp_between; lra | lra]. }
  destruct r.
  - pose proof (clamp_between (a' + (5 # 100)) 1 (c + da)) as k. lra.
  - lra.
Qed.

Lemma move_axis (a c da : Q) :
  0 <= a -> a + (5 # 100) <= c -> c <= 1 ->
  let w := c - a in
  let a' := Num.max 0 (Num.min (1 - w) (a + da)) in
  0 <= a' /\ a' + (5 # 100) <= a' + w /\ a' + w <= 1.
Proof.
  intros h0 h1 h2. cbv zeta.
  pose proof (clamp_between 0 (1 - (c - a)) (a + da)) as k. lra.
Qed.

Lemma drag_valid (dragging : string) (start : Crop.rect) (dx dy : Q) :
  valid_crop start -> valid_crop (Crop.drag dragging start dx dy).
Proof.
  destruct start as [a b c d]. unfold valid_crop, Crop.drag.
  cbn [Crop.x1 Crop.y1 Crop.x2 Crop.y2].
  intros (h1 & h2 & h3 & h4 & h5 & h6).
  destruct (dragging =? "move")%string; cbn [Crop.x1 Crop.y1 Crop.x2 Crop.y2].
  - pose proof (move_axis a c dx h1 h2 h3) as mx.
    pose proof (move_axis b d dy h4 h5 h6) as my.
    cbv zeta in mx, my. tauto.
  - pose proof (resize_axis (Crop.includes dragging "l")
                            (Crop.includes dragging "r") a c dx h1 h2 h3)
      as rx.
    pose proof (resize_axis (Crop.includes dragging "t")
                            (Crop.includes dragging "b") b d dy h4 h5 h6)
      as ry.
    cbv zeta in rx, ry. tauto.
Qed.







Lemma full_valid : valid_crop Crop.full.
Proof.
  unfold valid_crop, Crop.full. cbn [Crop.x1 Crop.y1 Crop.x2 Crop.y2].
  repeat split; vm_compute; discriminate.
Qed.

Lemma crop_after_valid (gs : list gesture) : valid_crop (crop_after gs).
Proof.
  unfold crop_after.
  assert (gen : forall c, valid_crop c -> valid_crop (fold_left perform gs c)).
  { induction gs as [|g gs ih]; intros c hc; simpl; [exact hc|].
    apply ih. destruct g; simpl; [now apply drag_valid | apply full_valid]. }
  apply gen, full_valid.
Qed.



(* ------------------------------------------------------------------ *)
(** ** The size of the grid and of the preview *)

Lemma round_near (a : Q) : Qabs (inject_Z (Num.round a) - a) <= 1 # 2.
Proof.
  unfold Num.round. destruct (floor_bounds (a + (1 # 2))) as [lo hi].
  apply Qabs_Qle_condition. lra.
Qed.

Lemma truthy_spec (a : Q) : App.truthy a = true <-> ~ a == 0.
Proof.
  unfold App.truthy. rewrite negb_true_iff, <- not_true_iff_false.
  now rewrite Qeq_bool_iff.
Qed.





(* ------------------------------------------------------------------ *)
(** ** The presets *)

Ltac preset_case :=
  unfold App.applyPreset;
  repeat match goal with
         | |- context [App.firstEntry App.ALGORITHM_GROUPS ?a] =>
             let f := fresh "f" in
             set (f := App.firstEntry App.ALGORITHM_GROUPS a);
             vm_compute in f; subst f
         end;
  cbn [App.preset App.d_threshold App.d_contrast App.d_brightness
         App.d_ditherStrength App.d_edgeSensitivity App.d_adaptiveBlockSize
         App.orKeep gridWidth gridHeight threshold invertColors algorithm
         contrast brightness edgeSensitivity adaptiveBlockSize
         ditherStrength];
  unfold generatePattern, patternOf, run;
  cbn [gridWidth gridHeight threshold invertColors algorithm
         contrast brightness edgeSensitivity adaptiveBlockSize
         ditherStrength String.eqb Ascii.eqb Bool.eqb];
  reflexivity.

(** Choosing an algorithm of the table resets every parameter that the
    algorithm reads, and the contrast and brightness: the pattern
    obtained afterwards depends on the image, the grid size and the
    inversion switch only, not on where the sliders stood before. *)
Theorem preset_determines_pattern :
  forall (alg : string) (st1 st2 : settings) (image : option (list Z)),
    In alg ["threshold"; "otsu"; "floydSteinberg"; "atkinson"; "ordered";
            "adaptive"; "sobel"]%string ->
    gridWidth st1 = gridWidth st2 -> gridHeight st1 = gridHeight st2 ->
    invertColors st1 = invertColors st2 ->
    generatePattern (App.applyPreset alg st1) image
    = generatePattern (App.applyPreset alg st2) image.
Proof.
  intros alg [w1 h1 t1 i1 a1 c1 b1 e1 k1 d1] [w2 h2 t2 i2 a2 c2 b2 e2 k2 d2]
         image hin ew eh ei.
  cbn [gridWidth gridHeight invertColors] in ew, eh, ei. subst w2 h2 i2.
  simpl in hin.
  destruct hin as [<-|[<-|[<-|[<-|[<-|[<-|[<-|[]]]]]]]]; preset_case.
Qed.

Lemma preset_determines_pattern_witness :
  generatePattern
    (App.applyPreset "sobel"
       (Settings 2 2 12 false "otsu" 55 60 99 3 7))
    (Some [0; 0; 0; 255; 9; 9; 9; 255; 200; 200; 200; 255; 3; 3; 3; 255]%Z)
  = generatePattern
      (App.applyPreset "sobel"
         (Settings 2 2 250 false "ordered" 180 140 10 31 200))
      (Some [0; 0; 0; 255; 9; 9; 9; 255; 200; 200; 200; 255; 3; 3; 3; 255]%Z).
Proof.
  refine (preset_determines_pattern "sobel" _ _ _ _ eq_refl eq_refl eq_refl).
  simpl. tauto.
Defined.
